(** * FheGasEst: the cost estimation and aggregation engine

    A shallow embedding of [contracts/FheGasEst.sol] and the properties of
    its cost registry, estimation engine, suggestion generator and analysis
    store.

    Solidity values are modelled as follows.
    - [uint256] is [N]; every [+], [*] and [++] of the contract is compiled
      by Solidity 0.8 with an overflow check that reverts with [Panic(0x11)],
      which is written out in [checked_add] and [checked_mul].
    - [address] is [N] as well (a 160-bit number).
    - a [mapping] is a [gmap] read with a default: a key that was never
      written reads as the zero value of the value type.
    - contract storage and the event log form the environment [Env] that an
      execution threads through; a failure ([require], panic) stops the
      execution, and [transact] gives the EVM's view of such a call:
      the environment is rolled back to the one before the call. *)

From Stdlib Require Import NArith Lia DecimalString.
From stdpp Require Import gmap strings list.

Local Open Scope N_scope.

(** ** Machine integers *)

Module Uint256.

Definition MAX : N := 2 ^ 256 - 1.

(** A value that a [uint256] variable can hold. *)
Definition fits (n : N) : Prop := n <= MAX.

#[global] Instance fits_dec n : Decision (fits n).
Proof. unfold fits. apply _. Defined.

End Uint256.

Abbreviation address := N (only parsing).

(** ** Failures *)

(** A call that does not return reverts with [Error(string)] (a failed
    [require]) or with [Panic(uint256)] (a failed compiler-inserted check). *)
Inductive Failure : Type :=
| Error (reason : string)
| Panic (code : N).

#[global] Instance Failure_eq_dec : EqDecision Failure.
Proof. solve_decision. Defined.

(** The panic codes of the Solidity ABI that this contract can meet. *)
Definition PANIC_OVERFLOW : N := 17.       (* 0x11 *)
Definition PANIC_OUT_OF_BOUNDS : N := 50.  (* 0x32 *)

(** The failure conditions under the names the specification gives them. *)
Definition MismatchedInputLength : Failure := Error "Invalid input lengths".
Definition UnknownOperation : Failure := Error "Unknown operation".
Definition ArithmeticOverflow : Failure := Panic PANIC_OVERFLOW.

(** ** Data model *)

Record OperationCost : Type := mkOperationCost {
  operationName : string;
  baseCost : N;
  perByteCost : N
}.

Record ContractAnalysis : Type := mkContractAnalysis {
  contractName : string;
  totalFheOps : N;
  estimatedGas : N;
  optimizationSuggestions : list string
}.

#[global] Instance OperationCost_eq_dec : EqDecision OperationCost.
Proof. solve_decision. Defined.

#[global] Instance ContractAnalysis_eq_dec : EqDecision ContractAnalysis.
Proof. solve_decision. Defined.

(** Zero values: what a mapping returns for a key that was never written. *)
Definition zeroOperationCost : OperationCost := mkOperationCost "" 0 0.
Definition zeroContractAnalysis : ContractAnalysis := mkContractAnalysis "" 0 0 [].

Inductive Event : Type :=
| OperationCostUpdated (operation : string) (base perByte : N)
| ContractAnalyzed (contractAddress : address) (gas : N)
| OptimizationSuggested (contractAddress : address) (suggestion : string).

(** The four state variables of the contract. *)
Record Storage : Type := mkStorage {
  operationCosts : gmap string OperationCost;
  contractAnalyses : gmap address ContractAnalysis;
  analyzedContracts : list address;
  analysisCount : N
}.

Record Env : Type := mkEnv {
  store : Storage;
  logs : list Event
}.

(** Reading [operationCosts[name]] and [contractAnalyses[a]]. *)
Definition costOf (s : Storage) (name : string) : OperationCost :=
  default zeroOperationCost (operationCosts s !! name).

Definition analysisOf (s : Storage) (a : address) : ContractAnalysis :=
  default zeroContractAnalysis (contractAnalyses s !! a).

(** ** Executions *)

Definition Exec (A : Type) : Type := Env -> (Failure + A) * Env.

Definition ret {A} (a : A) : Exec A := fun env => (inr a, env).

Definition bind {A B} (m : Exec A) (k : A -> Exec B) : Exec B :=
  fun env =>
    match m env with
    | (inr a, env') => k a env'
    | (inl e, env') => (inl e, env')
    end.

Notation "'let*' x ':=' m 'in' k" := (bind m (fun x => k))
  (at level 10, x name, m at level 100, k at level 200).
Notation "m ';;' k" := (bind m (fun _ => k))
  (at level 100, k at level 200, right associativity).

Definition revert {A} (e : Failure) : Exec A := fun env => (inl e, env).

Definition require (cond : bool) (reason : string) : Exec unit :=
  if cond then ret tt else revert (Error reason).

Definition sload : Exec Storage := fun env => (inr (store env), env).

Definition sstore (s : Storage) : Exec unit :=
  fun env => (inr tt, mkEnv s (logs env)).

Definition emit (ev : Event) : Exec unit :=
  fun env => (inr tt, mkEnv (store env) (logs env ++ [ev])).

Definition checked_add (a b : N) : Exec N :=
  if a + b <=? Uint256.MAX then ret (a + b) else revert (Panic PANIC_OVERFLOW).

Definition checked_mul (a b : N) : Exec N :=
  if a * b <=? Uint256.MAX then ret (a * b) else revert (Panic PANIC_OVERFLOW).

(** [array[i]] on a memory array: out of range is [Panic(0x32)]. *)
Definition array_get {A} (array : list A) (i : nat) : Exec A :=
  match array !! i with
  | Some x => ret x
  | None => revert (Panic PANIC_OUT_OF_BOUNDS)
  end.

(** [for (uint256 i = start; i < start + n; i++) body]: the body runs for
    [n] consecutive indices and threads the local variables [V]. *)
Fixpoint for_loop {V} (start n : nat) (body : nat -> V -> Exec V) (v : V) : Exec V :=
  match n with
  | O => ret v
  | S n' => let* v' := body start v in for_loop (S start) n' body v'
  end.

(** What the caller of an external function observes: a call that reverts
    leaves storage and logs as they were before it. *)
Definition transact {A} (m : Exec A) (env : Env) : (Failure + A) * Env :=
  match m env with
  | (inr a, env') => (inr a, env')
  | (inl e, _) => (inl e, env)
  end.

(** ** The contract *)

(** [Strings.toString(uint256)] is library code that the contract calls
    without defining it: the decimal ASCII representation, ["0"] for zero. *)
Definition Strings_toString (n : N) : string :=
  NilZero.string_of_uint (N.to_uint n).

(** [appendString]: allocate an array one longer, copy, set the last slot. *)
Definition appendString (array : list string) (element : string) : list string :=
  let newArray := replicate (length array + 1)%nat ""%string in
  let newArray :=
    foldl (fun acc i => <[i := default ""%string (array !! i)]> acc)
          newArray (seq 0 (length array)) in
  <[length array := element]> newArray.

Definition setCost (name : string) (c : OperationCost) (s : Storage) : Storage :=
  mkStorage (<[name := c]> (operationCosts s)) (contractAnalyses s)
            (analyzedContracts s) (analysisCount s).

Definition write_cost (name : string) (base perByte : N) : Exec unit :=
  let* s := sload in
  sstore (setCost name (mkOperationCost name base perByte) s).

Definition constructor : Exec unit :=
  write_cost "FHE.add" 5000 10;;
  write_cost "FHE.sub" 5000 10;;
  write_cost "FHE.mul" 15000 20;;
  write_cost "FHE.div" 20000 25;;
  write_cost "FHE.gt" 8000 15;;
  write_cost "FHE.lt" 8000 15;;
  write_cost "FHE.eq" 7000 12;;
  write_cost "FHE.ne" 7000 12;;
  write_cost "FHE.and" 6000 10;;
  write_cost "FHE.or" 6000 10;;
  write_cost "FHE.not" 4000 8;;
  write_cost "FHE.cast" 3000 5.

Definition updateOperationCost (operation : string) (base perByte : N) : Exec unit :=
  write_cost operation base perByte;;
  emit (OperationCostUpdated operation base perByte).

(** The local variables that the loop of [analyzeContract] updates. In the
    loop body [operations[i]] and [operationCounts[i]] are read once, where
    the source first mentions them: memory arrays do not change under it. *)
Record Locals : Type := mkLocals {
  totalGas : N;
  totalOps : N;
  suggestions : list string
}.

Definition suggestionText (operation : string) (count : N) : string :=
  ("Consider reducing calls to " ++ operation ++
   " (" ++ Strings_toString count ++ " calls)")%string.

Definition analyze_body (contractAddress : address)
    (operations : list string) (operationCounts : list N) (avgDataSize : N)
    (i : nat) (v : Locals) : Exec Locals :=
  let* operation := array_get operations i in
  let* s := sload in
  let cost := costOf s operation in
  require (0 <? baseCost cost) "Unknown operation";;
  let* perBytes := checked_mul (perByteCost cost) avgDataSize in
  let* opGas := checked_add (baseCost cost) perBytes in
  let* count := array_get operationCounts i in
  let* gas := checked_mul opGas count in
  let* totalGas' := checked_add (totalGas v) gas in
  let* totalOps' := checked_add (totalOps v) count in
  if (10000 <? baseCost cost) && (5 <? count) then
    let suggestion := suggestionText operation count in
    emit (OptimizationSuggested contractAddress suggestion);;
    ret (mkLocals totalGas' totalOps' (appendString (suggestions v) suggestion))
  else
    ret (mkLocals totalGas' totalOps' (suggestions v)).

Definition analyzeContract (contractAddress : address) (contractName : string)
    (operations : list string) (operationCounts : list N) (avgDataSize : N)
    : Exec ContractAnalysis :=
  require (bool_decide (length operations = length operationCounts))
          "Invalid input lengths";;
  let* v := for_loop 0 (length operations)
              (analyze_body contractAddress operations operationCounts avgDataSize)
              (mkLocals 0 0 []) in
  let analysis :=
    mkContractAnalysis contractName (totalOps v) (totalGas v) (suggestions v) in
  let* s := sload in
  sstore (mkStorage (operationCosts s)
                    (<[contractAddress := analysis]> (contractAnalyses s))
                    (analyzedContracts s) (analysisCount s));;
  let* s := sload in
  sstore (mkStorage (operationCosts s) (contractAnalyses s)
                    (analyzedContracts s ++ [contractAddress]) (analysisCount s));;
  let* s := sload in
  let* count := checked_add (analysisCount s) 1 in
  sstore (mkStorage (operationCosts s) (contractAnalyses s)
                    (analyzedContracts s) count);;
  emit (ContractAnalyzed contractAddress (totalGas v));;
  ret analysis.

Definition getAnalysis (contractAddress : address) : Exec ContractAnalysis :=
  let* s := sload in ret (analysisOf s contractAddress).

Definition estimateSingleOperation (operation : string) (dataSize : N) : Exec N :=
  let* s := sload in
  let cost := costOf s operation in
  require (0 <? baseCost cost) "Unknown operation";;
  let* perBytes := checked_mul (perByteCost cost) dataSize in
  checked_add (baseCost cost) perBytes.

Definition getAllAnalyzedContracts : Exec (list address) :=
  let* s := sload in ret (analyzedContracts s).

(** The environment right after deployment. *)
Definition emptyStorage : Storage := mkStorage ∅ ∅ [] 0.
Definition deployed : Env := (constructor (mkEnv emptyStorage [])).2.

(** ** The quantities the analysis is specified by

    Exact (unbounded) arithmetic over the registry held in storage [s]. *)

Section Quantities.
Variable s : Storage.
Variable avgDataSize : N.

(** An operation is registered when its entry has a nonzero base cost. *)
Definition registered (name : string) : Prop := 0 < baseCost (costOf s name).

Definition opGas (name : string) : N :=
  baseCost (costOf s name) + perByteCost (costOf s name) * avgDataSize.

(** The rule of the suggestion generator for one (operation, count) pair. *)
Definition flagged (p : string * N) : Prop :=
  10000 < baseCost (costOf s p.1) ∧ 5 < p.2.

#[global] Instance registered_dec name : Decision (registered name).
Proof. unfold registered. apply _. Defined.

#[global] Instance flagged_dec p : Decision (flagged p).
Proof. unfold flagged. apply _. Defined.

(** Sum over the positions of [(baseCost + perByteCost * avgDataSize) * count]. *)
Fixpoint gasSum (operations : list string) (counts : list N) : N :=
  match operations, counts with
  | op :: operations', c :: counts' => opGas op * c + gasSum operations' counts'
  | _, _ => 0
  end.

Definition countSum (counts : list N) : N := foldr N.add 0 counts.

(** One advisory string per flagged position, in input order. *)
Definition suggestionsFor (operations : list string) (counts : list N) : list string :=
  (λ p, suggestionText p.1 p.2) <$> filter flagged (zip operations counts).

(** Every intermediate value of the accumulation is representable. *)
Definition accumulates (operations : list string) (counts : list N) : Prop :=
  Forall (λ op, opGas op <= Uint256.MAX) operations ∧
  gasSum operations counts <= Uint256.MAX.

End Quantities.

(** ** The course of the aggregation loop *)

(** The local variables after a successful iteration on [(op, c)]. *)
Definition advance (avgDataSize : N) (s : Storage) (op : string) (c : N)
    (v : Locals) : Locals :=
  mkLocals (totalGas v + opGas s avgDataSize op * c) (totalOps v + c)
           (suggestions v ++ suggestionsFor s [op] [c]).

(** The events of the iterations: one per suggestion. *)
Definition advisories (contractAddress : address) (s : Storage)
    (ops : list string) (cs : list N) : list Event :=
  OptimizationSuggested contractAddress <$> suggestionsFor s ops cs.

(** How the loop ends when it is run on the pairs of [ops] and [cs] from
    the local variables [v]: at the first position that is unregistered
    or whose accumulation is not representable, else with the totals. *)
Fixpoint outcome (s : Storage) (avgDataSize : N) (ops : list string) (cs : list N)
    (v : Locals) : Failure + Locals :=
  match ops, cs with
  | op :: ops', c :: cs' =>
      if decide (registered s op) then
        if decide (opGas s avgDataSize op <= Uint256.MAX ∧
                   totalGas v + opGas s avgDataSize op * c <= Uint256.MAX)
        then outcome s avgDataSize ops' cs' (advance avgDataSize s op c v)
        else inl ArithmeticOverflow
      else inl UnknownOperation
  | _, _ => inr v
  end.

Definition finalLocals (s : Storage) (avgDataSize : N) (ops : list string)
    (cs : list N) (v : Locals) : Locals :=
  mkLocals (totalGas v + gasSum s avgDataSize ops cs)
           (totalOps v + countSum cs)
           (suggestions v ++ suggestionsFor s ops cs).

(** The local variables when the loop starts. *)
Definition startLocals : Locals := mkLocals 0 0 [].

(** The analysis that [analyzeContract] builds from the final locals. *)
Definition analysisFrom (name : string) (v : Locals) : ContractAnalysis :=
  mkContractAnalysis name (totalOps v) (totalGas v) (suggestions v).

(** Storage after [analyzeContract] has recorded [analysis] for [a]. *)
Definition recorded (a : address) (analysis : ContractAnalysis) (s : Storage) : Storage :=
  mkStorage (operationCosts s)
            (<[a := analysis]> (contractAnalyses s))
            (analyzedContracts s ++ [a])
            (analysisCount s + 1).

(** ** Calls and reachable states *)

(** The external functions of the contract, the getters that Solidity
    generates for its public state variables included. *)
Inductive Call : Type :=
| CallUpdateOperationCost (operation : string) (base perByte : N)
| CallAnalyzeContract (contractAddress : address) (name : string)
    (operations : list string) (operationCounts : list N) (avgDataSize : N)
| CallGetAnalysis (contractAddress : address)
| CallEstimateSingleOperation (operation : string) (dataSize : N)
| CallGetAllAnalyzedContracts
| CallOperationCosts (operation : string)
| CallContractAnalyses (contractAddress : address)
| CallAnalyzedContracts (index : nat)
| CallAnalysisCount.

Definition void {A} (m : Exec A) : Exec unit := let* _ := m in ret tt.

Definition dispatch (c : Call) : Exec unit :=
  match c with
  | CallUpdateOperationCost operation base perByte =>
      updateOperationCost operation base perByte
  | CallAnalyzeContract a name operations operationCounts avgDataSize =>
      void (analyzeContract a name operations operationCounts avgDataSize)
  | CallGetAnalysis a => void (getAnalysis a)
  | CallEstimateSingleOperation operation dataSize =>
      void (estimateSingleOperation operation dataSize)
  | CallGetAllAnalyzedContracts => void getAllAnalyzedContracts
  | CallOperationCosts operation =>
      void (let* s := sload in ret (costOf s operation))
  | CallContractAnalyses a =>
      void (let* s := sload in ret (analysisOf s a))
  | CallAnalyzedContracts index =>
      void (let* s := sload in array_get (analyzedContracts s) index)
  | CallAnalysisCount =>
      void (let* s := sload in ret (analysisCount s))
  end.

(** The environment after a call, as a transaction. *)
Definition step (env : Env) (c : Call) : Env := (transact (dispatch c) env).2.

(** The environment after deployment and a sequence of calls. *)
Definition run (calls : list Call) : Env := foldl step deployed calls.

(** The effect of one call on the counter and on the append log. *)
Definition untouched (env env' : Env) : Prop :=
  analysisCount (store env') = analysisCount (store env) ∧
  analyzedContracts (store env') = analyzedContracts (store env).

Definition appended (a : address) (env env' : Env) : Prop :=
  analysisCount (store env') = analysisCount (store env) + 1 ∧
  analyzedContracts (store env') = analyzedContracts (store env) ++ [a].

(** ** Vocabulary for further properties *)

(** What [estimateSingleOperation] returns for [op] at data size [avg] in
    [env], read as 0 when it fails. *)
Definition estimated (env : Env) (avg : N) (op : string) : N :=
  match (estimateSingleOperation op avg env).1 with
  | inr g => g
  | inl _ => 0
  end.

(** The sum of [estimate * count] over a list of (operation, count) pairs. *)
Definition estimateSum (env : Env) (avg : N) (l : list (string * N)) : N :=
  foldr (λ p acc, estimated env avg p.1 * p.2 + acc) 0 l.

(** The names the constructor writes. *)
Definition defaultOperations : list string :=
  ["FHE.add"; "FHE.sub"; "FHE.mul"; "FHE.div"; "FHE.gt"; "FHE.lt";
   "FHE.eq"; "FHE.ne"; "FHE.and"; "FHE.or"; "FHE.not"; "FHE.cast"]%string.

(** The address a call asks to analyse, if it is an [analyzeContract] call. *)
Definition analysisTarget (c : Call) : option address :=
  match c with
  | CallAnalyzeContract a _ _ _ _ => Some a
  | _ => None
  end.

(** ** The record table of the web front end ([App.tsx])

    The pagination of the record table. The numbers involved (page number,
    indices, array length) are JavaScript numbers that only take small
    integer values, modelled as [Z]; [Math.ceil(n / itemsPerPage)] of such
    values is the integer ceiling of the quotient. *)

Module App.

(** [Array.prototype.slice(start, end)] for integer arguments: a negative
    index counts from the end, every index is clamped to the array, and an
    empty range gives the empty array. *)
Definition slice {A} (l : list A) (start end_ : Z) : list A :=
  let len := Z.of_nat (length l) in
  let k := if (start <? 0)%Z then Z.max (len + start) 0 else Z.min start len in
  let final := if (end_ <? 0)%Z then Z.max (len + end_) 0 else Z.min end_ len in
  take (Z.to_nat (final - k)) (drop (Z.to_nat k) l).

Definition itemsPerPage : Z := 5.

Definition currentRecords {A} (filteredRecords : list A) (currentPage : Z) : list A :=
  let indexOfLastItem := (currentPage * itemsPerPage)%Z in
  let indexOfFirstItem := (indexOfLastItem - itemsPerPage)%Z in
  slice filteredRecords indexOfFirstItem indexOfLastItem.

Definition totalPages {A} (filteredRecords : list A) : Z :=
  ((Z.of_nat (length filteredRecords) + itemsPerPage - 1) / itemsPerPage)%Z.

End App.

(** ** Reasoning about executions *)

Ltac exec_unfold :=
  unfold array_get, require, checked_add, checked_mul, sload, sstore, emit,
         bind, ret, revert in *.

Ltac leb_cases :=
  repeat match goal with
  | |- context [?a <=? ?b] => destruct (N.leb_spec a b); simpl
  | |- context [?a <? ?b] => destruct (N.ltb_spec a b); simpl
  end.

Lemma appendString_copy (array acc : list string) (n : nat) :
  (n ≤ length array)%nat → (n ≤ length acc)%nat →
  foldl (λ acc i, <[i := default ""%string (array !! i)]> acc) acc (seq 0 n)
  = take n array ++ drop n acc.
Proof.
  induction n as [|n IH]; intros Ha Hc.
  - by rewrite take_0, drop_0.
  - rewrite seq_S, foldl_app. simpl. rewrite IH by lia.
    destruct (lookup_lt_is_Some_2 array n) as [x Hx]; [lia|].
    destruct (lookup_lt_is_Some_2 acc n) as [y Hy]; [lia|].
    rewrite Hx. simpl.
    rewrite (take_S_r _ _ _ Hx), (drop_S _ _ _ Hy).
    rewrite insert_app_r_alt by (rewrite length_take; lia).
    rewrite length_take, Nat.min_l, Nat.sub_diag by lia.
    simpl. by rewrite <- app_assoc.
Qed.

(** The copying loop of [appendString] builds the array with one more slot. *)
Lemma appendString_snoc (array : list string) (element : string) :
  appendString array element = array ++ [element].
Proof.
  unfold appendString.
  rewrite appendString_copy by (rewrite ?length_replicate; lia).
  rewrite firstn_all, drop_replicate.
  replace (length array + 1 - length array)%nat with 1%nat by lia.
  simpl. rewrite insert_app_r_alt by lia.
  by rewrite Nat.sub_diag.
Qed.

(** ** One iteration of the aggregation loop *)

Section Iteration.
Variable contractAddress : address.
Variable operations : list string.
Variable operationCounts : list N.
Variable avgDataSize : N.

Local Abbreviation body :=
  (analyze_body contractAddress operations operationCounts avgDataSize).

Lemma suggestionsFor_one s op c :
  suggestionsFor s [op] [c] =
  if decide (flagged s (op, c)) then [suggestionText op c] else [].
Proof.
  unfold suggestionsFor. simpl. rewrite filter_cons, filter_nil.
  by destruct (decide (flagged s (op, c))).
Qed.

Lemma analyze_body_unknown i v env op :
  operations !! i = Some op →
  ¬ registered (store env) op →
  body i v env = (inl UnknownOperation, env).
Proof.
  intros Hop Hreg. unfold registered in Hreg.
  unfold analyze_body. exec_unfold. rewrite Hop.
  destruct (N.ltb_spec 0 (baseCost (costOf (store env) op))); [lia | reflexivity].
Qed.

Lemma analyze_body_overflow i v env op c :
  operations !! i = Some op →
  operationCounts !! i = Some c →
  registered (store env) op →
  Uint256.MAX < opGas (store env) avgDataSize op ∨
  Uint256.MAX < totalGas v + opGas (store env) avgDataSize op * c →
  body i v env = (inl ArithmeticOverflow, env).
Proof.
  intros Hop Hc Hreg Hov. unfold registered, opGas in *.
  unfold analyze_body. exec_unfold. rewrite Hop, Hc.
  destruct (N.ltb_spec 0 (baseCost (costOf (store env) op))); [|lia]. simpl.
  leb_cases; try done; lia.
Qed.

Lemma analyze_body_ok i v env op c :
  operations !! i = Some op →
  operationCounts !! i = Some c →
  registered (store env) op →
  opGas (store env) avgDataSize op <= Uint256.MAX →
  totalGas v + opGas (store env) avgDataSize op * c <= Uint256.MAX →
  totalOps v <= totalGas v →
  body i v env =
    (inr (advance avgDataSize (store env) op c v),
     mkEnv (store env) (logs env ++ advisories contractAddress (store env) [op] [c])).
Proof.
  intros Hop Hc Hreg Hg Hsum Hinv.
  assert (c <= opGas (store env) avgDataSize op * c) as Hle.
  { unfold registered, opGas in *. nia. }
  unfold advance, advisories. rewrite suggestionsFor_one.
  unfold registered, opGas, flagged in *. simpl in *.
  unfold analyze_body. exec_unfold. rewrite Hop, Hc.
  destruct (N.ltb_spec 0 (baseCost (costOf (store env) op))); [|lia]. simpl.
  destruct (N.leb_spec (perByteCost (costOf (store env) op) * avgDataSize)
                       Uint256.MAX); [|lia]. simpl.
  destruct (N.leb_spec (baseCost (costOf (store env) op) +
                        perByteCost (costOf (store env) op) * avgDataSize)
                       Uint256.MAX); [|lia]. simpl.
  match goal with |- context [?a * c <=? ?b] =>
    destruct (N.leb_spec (a * c) b); [|lia] end. simpl.
  match goal with |- context [totalGas v + ?a <=? ?b] =>
    destruct (N.leb_spec (totalGas v + a) b); [|lia] end. simpl.
  destruct (N.leb_spec (totalOps v + c) Uint256.MAX); [|lia]. simpl.
  destruct (N.ltb_spec 10000 (baseCost (costOf (store env) op)));
    destruct (N.ltb_spec 5 c); simpl;
    destruct (decide _) as [[]|Hn]; try lia;
    try (exfalso; apply Hn; split; lia);
    rewrite ?appendString_snoc, ?app_nil_r; try done.
  all: by destruct env.
Qed.

Lemma advance_invariant s op c v :
  registered s op →
  totalOps v <= totalGas v →
  totalOps (advance avgDataSize s op c v) <= totalGas (advance avgDataSize s op c v).
Proof.
  intros Hreg Hinv.
  assert (c <= opGas s avgDataSize op * c) by (unfold registered, opGas in *; nia).
  unfold advance. simpl. lia.
Qed.

End Iteration.

(** ** The aggregation loop *)

Lemma drop_eq_cons {A} (l : list A) (i : nat) (x : A) (t : list A) :
  drop i l = x :: t → l !! i = Some x ∧ drop (S i) l = t.
Proof.
  intros H. split.
  - rewrite <- (Nat.add_0_r i), <- lookup_drop, H. done.
  - replace (S i) with (i + 1)%nat by lia.
    rewrite <- drop_drop, H. done.
Qed.

Section Outcome.
Variable s : Storage.
Variable avgDataSize : N.

Local Abbreviation gas := (opGas s avgDataSize).

Lemma suggestionsFor_cons op c ops cs :
  suggestionsFor s (op :: ops) (c :: cs) =
  suggestionsFor s [op] [c] ++ suggestionsFor s ops cs.
Proof.
  unfold suggestionsFor. simpl. rewrite !filter_cons, filter_nil.
  by destruct (decide (flagged s (op, c))).
Qed.

Lemma finalLocals_cons op c ops cs v :
  finalLocals s avgDataSize ops cs (advance avgDataSize s op c v) =
  finalLocals s avgDataSize (op :: ops) (c :: cs) v.
Proof.
  unfold finalLocals, advance. simpl.
  rewrite (suggestionsFor_cons op c ops cs), <- app_assoc.
  f_equal; lia.
Qed.

(** A batch of registered operations whose accumulation is representable
    runs to the end. *)
Lemma outcome_ok ops : ∀ cs v,
  length ops = length cs →
  Forall (registered s) ops →
  Forall (λ op, gas op <= Uint256.MAX) ops →
  totalGas v + gasSum s avgDataSize ops cs <= Uint256.MAX →
  outcome s avgDataSize ops cs v = inr (finalLocals s avgDataSize ops cs v).
Proof.
  induction ops as [|op ops IH]; intros [|c cs] v Hlen Hreg Hfit Hsum;
    simplify_eq/=.
  - unfold finalLocals. simpl. rewrite app_nil_r, !N.add_0_r. by destruct v.
  - inversion_clear Hreg. inversion_clear Hfit.
    rewrite decide_True by done.
    rewrite decide_True by (split; [done | lia]).
    rewrite IH; [by rewrite finalLocals_cons | done.. |].
    unfold advance. simpl. lia.
Qed.

(** Conversely, a run that reaches the end met only registered operations
    and representable values, and ends with the exact totals. *)
Lemma outcome_inv ops : ∀ cs v v',
  length ops = length cs →
  totalGas v <= Uint256.MAX →
  outcome s avgDataSize ops cs v = inr v' →
  Forall (registered s) ops ∧
  Forall (λ op, gas op <= Uint256.MAX) ops ∧
  totalGas v + gasSum s avgDataSize ops cs <= Uint256.MAX ∧
  v' = finalLocals s avgDataSize ops cs v.
Proof.
  induction ops as [|op ops IH]; intros [|c cs] v v' Hlen Hv Hout;
    simplify_eq/=.
  - unfold finalLocals. simpl. rewrite app_nil_r, !N.add_0_r.
    destruct v'. repeat split; auto.
  - destruct (decide (registered s op)) as [Hreg|]; [|done].
    destruct (decide _) as [[Hfit Hsum]|]; [|done].
    apply IH in Hout as (Hregs & Hfits & Hsums & ->);
      [| done | by unfold advance].
    rewrite finalLocals_cons. unfold advance in Hsums. simpl in Hsums.
    repeat split; [by constructor | by constructor | lia].
Qed.

(** The loop stops at the first unregistered operation when everything
    before it is registered and accumulates without overflow. *)
Lemma outcome_unknown pre bad rest : ∀ cs v,
  length (pre ++ bad :: rest) = length cs →
  Forall (registered s) pre →
  Forall (λ op, gas op <= Uint256.MAX) pre →
  totalGas v + gasSum s avgDataSize pre cs <= Uint256.MAX →
  ¬ registered s bad →
  outcome s avgDataSize (pre ++ bad :: rest) cs v = inl UnknownOperation.
Proof.
  induction pre as [|op pre IH]; intros [|c cs] v Hlen Hreg Hfit Hsum Hbad;
    simplify_eq/=.
  - by rewrite decide_False.
  - inversion_clear Hreg. inversion_clear Hfit.
    rewrite decide_True by done.
    rewrite decide_True by (split; [done | lia]).
    apply IH; try done. unfold advance. simpl. lia.
Qed.

(** A batch with an unregistered operation never runs to the end. *)
Lemma outcome_unregistered ops : ∀ cs v,
  length ops = length cs →
  Exists (λ op, ¬ registered s op) ops →
  outcome s avgDataSize ops cs v = inl UnknownOperation ∨
  outcome s avgDataSize ops cs v = inl ArithmeticOverflow.
Proof.
  induction ops as [|op ops IH]; intros [|c cs] v Hlen Hex;
    simplify_eq/=; try by inversion Hex.
  destruct (decide (registered s op)) as [Hreg|]; [|by left].
  destruct (decide _); [|by right].
  apply IH; [done|]. by inversion Hex.
Qed.

(** A batch of registered operations whose accumulation is not
    representable stops with the overflow panic. *)
Lemma outcome_overflow ops : ∀ cs v,
  length ops = length cs →
  Forall (registered s) ops →
  Exists (λ op, Uint256.MAX < gas op) ops ∨
  Uint256.MAX < totalGas v + gasSum s avgDataSize ops cs →
  totalGas v <= Uint256.MAX →
  outcome s avgDataSize ops cs v = inl ArithmeticOverflow.
Proof.
  induction ops as [|op ops IH]; intros [|c cs] v Hlen Hreg Hov Hv;
    simplify_eq/=.
  - destruct Hov as [Hex|]; [by inversion Hex | lia].
  - inversion_clear Hreg.
    rewrite decide_True by done.
    destruct (decide _) as [[Hfit Hsum]|]; [|done].
    apply IH; [done | done | | by unfold advance].
    destruct Hov as [Hex|Hov].
    + inversion Hex; subst; [lia | by left].
    + right. unfold advance. simpl. lia.
Qed.

End Outcome.

Section Loop.
Variable contractAddress : address.
Variable operations : list string.
Variable operationCounts : list N.
Variable avgDataSize : N.

Local Abbreviation body :=
  (analyze_body contractAddress operations operationCounts avgDataSize).

Lemma advisories_cons s op c ops cs :
  advisories contractAddress s (op :: ops) (c :: cs) =
  advisories contractAddress s [op] [c] ++ advisories contractAddress s ops cs.
Proof. unfold advisories. by rewrite suggestionsFor_cons, fmap_app. Qed.

(** The loop from index [i] on ends as [outcome] says for the remaining
    pairs; it leaves storage alone and logs one event per suggestion. *)
Lemma for_loop_outcome ops : ∀ cs i v env,
  drop i operations = ops →
  drop i operationCounts = cs →
  length ops = length cs →
  totalOps v <= totalGas v →
  ∃ evs,
    for_loop i (length ops) body v env =
      (outcome (store env) avgDataSize ops cs v,
       mkEnv (store env) (logs env ++ evs)) ∧
    (∀ v', outcome (store env) avgDataSize ops cs v = inr v' →
           evs = advisories contractAddress (store env) ops cs).
Proof.
  induction ops as [|op ops IH]; intros [|c cs] i v env Hops Hcs Hlen Hinv;
    simplify_eq/=.
  - exists []. rewrite app_nil_r. by destruct env.
  - apply drop_eq_cons in Hops as [Hop Hops].
    apply drop_eq_cons in Hcs as [Hc Hcs].
    unfold bind at 1.
    destruct (decide (registered (store env) op)) as [Hreg|Hreg].
    2: { rewrite (analyze_body_unknown _ _ _ _ i v env op Hop Hreg).
         exists []. rewrite app_nil_r. by destruct env. }
    destruct (decide _) as [[Hfit Hsum]|Hno].
    2: { rewrite (analyze_body_overflow _ _ _ _ i v env op c Hop Hc Hreg)
           by (apply not_and_l in Hno as [?|?]; [left|right]; lia).
         exists []. rewrite app_nil_r. by destruct env. }
    rewrite (analyze_body_ok _ _ _ _ i v env op c Hop Hc Hreg Hfit Hsum Hinv).
    destruct (IH cs (S i) (advance avgDataSize (store env) op c v)
                (mkEnv (store env)
                   (logs env ++ advisories contractAddress (store env) [op] [c]))
                Hops Hcs) as (evs & Hrun & Hevs);
      [lia | by apply advance_invariant |].
    simpl in *. rewrite Hrun.
    exists (advisories contractAddress (store env) [op] [c] ++ evs).
    split; [by rewrite app_assoc|].
    intros v' Hv'. rewrite (Hevs v' Hv'). symmetry. apply advisories_cons.
Qed.

End Loop.

(** ** The entry points, case by case *)

Section Analyze.
Variable contractAddress : address.
Variable name : string.
Variable operations : list string.
Variable operationCounts : list N.
Variable avgDataSize : N.

Local Abbreviation analyze :=
  (analyzeContract contractAddress name operations operationCounts avgDataSize).

Lemma analyze_mismatch env :
  length operations ≠ length operationCounts →
  analyze env = (inl MismatchedInputLength, env).
Proof.
  intros Hlen. unfold analyzeContract.
  rewrite bool_decide_eq_false_2 by done. reflexivity.
Qed.

(** The loop inside [analyzeContract], from index 0 over the whole input. *)
Lemma analyze_loop env :
  length operations = length operationCounts →
  ∃ evs,
    for_loop 0 (length operations)
      (analyze_body contractAddress operations operationCounts avgDataSize)
      startLocals env =
      (outcome (store env) avgDataSize operations operationCounts startLocals,
       mkEnv (store env) (logs env ++ evs)) ∧
    (∀ v', outcome (store env) avgDataSize operations operationCounts
             startLocals = inr v' →
           evs = advisories contractAddress (store env) operations operationCounts).
Proof.
  intros Hlen.
  apply (for_loop_outcome contractAddress operations operationCounts
           avgDataSize operations operationCounts 0 startLocals env);
    [done | done | done | reflexivity].
Qed.

(** The loop stopped: the call stops with the same failure, before any
    write to storage. *)
Lemma analyze_stopped env e :
  length operations = length operationCounts →
  outcome (store env) avgDataSize operations operationCounts startLocals = inl e →
  ∃ evs, analyze env = (inl e, mkEnv (store env) (logs env ++ evs)).
Proof.
  intros Hlen Hout.
  destruct (analyze_loop env Hlen) as (evs & Hrun & _).
  exists evs. unfold analyzeContract.
  rewrite bool_decide_eq_true_2 by done.
  unfold require, bind at 1. unfold ret at 1.
  unfold bind at 1. fold startLocals. by rewrite Hrun, Hout.
Qed.

(** The loop ran to the end and the counter can be incremented: the
    analysis is recorded and returned. *)
Lemma analyze_recorded env v :
  length operations = length operationCounts →
  outcome (store env) avgDataSize operations operationCounts startLocals = inr v →
  analysisCount (store env) < Uint256.MAX →
  analyze env =
    (inr (analysisFrom name v),
     mkEnv (recorded contractAddress (analysisFrom name v) (store env))
           (logs env ++
            advisories contractAddress (store env) operations operationCounts ++
            [ContractAnalyzed contractAddress (totalGas v)])).
Proof.
  intros Hlen Hout Hcount.
  destruct (analyze_loop env Hlen) as (evs & Hrun & Hevs).
  rewrite (Hevs v Hout) in Hrun.
  unfold analyzeContract.
  rewrite bool_decide_eq_true_2 by done.
  unfold require, bind at 1. unfold ret at 1.
  unfold bind at 1. fold startLocals. rewrite Hrun, Hout.
  exec_unfold. simpl.
  destruct (N.leb_spec (analysisCount (store env) + 1) Uint256.MAX); [|lia].
  simpl. by rewrite <- app_assoc.
Qed.

(** The loop ran to the end but the counter is at its maximum: the
    increment panics (after the two earlier writes, which the revert of
    the call undoes). *)
Lemma analyze_counter_full env v :
  length operations = length operationCounts →
  outcome (store env) avgDataSize operations operationCounts startLocals = inr v →
  Uint256.MAX <= analysisCount (store env) →
  ∃ env', analyze env = (inl ArithmeticOverflow, env').
Proof.
  intros Hlen Hout Hcount.
  destruct (analyze_loop env Hlen) as (evs & Hrun & Hevs).
  unfold analyzeContract.
  rewrite bool_decide_eq_true_2 by done.
  unfold require, bind at 1. unfold ret at 1.
  unfold bind at 1. fold startLocals. rewrite Hrun, Hout.
  exec_unfold. simpl.
  destruct (N.leb_spec (analysisCount (store env) + 1) Uint256.MAX); [lia|].
  simpl. eauto.
Qed.

(** Every way [analyzeContract] can return. *)
Lemma analyze_inv env a env' :
  analyze env = (inr a, env') →
  length operations = length operationCounts ∧
  analysisCount (store env) < Uint256.MAX ∧
  ∃ v,
    outcome (store env) avgDataSize operations operationCounts startLocals = inr v ∧
    a = analysisFrom name v ∧
    env' = mkEnv (recorded contractAddress a (store env))
             (logs env ++
              advisories contractAddress (store env) operations operationCounts ++
              [ContractAnalyzed contractAddress (totalGas v)]).
Proof.
  intros Hrun.
  destruct (decide (length operations = length operationCounts)) as [Hlen|Hlen].
  2: { by rewrite analyze_mismatch in Hrun. }
  destruct (outcome (store env) avgDataSize operations operationCounts
              startLocals) as [e|v] eqn:Hout.
  { destruct (analyze_stopped env e Hlen Hout) as (evs & Hstop). congruence. }
  destruct (decide (analysisCount (store env) < Uint256.MAX)) as [Hcount|Hcount].
  2: { destruct (analyze_counter_full env v Hlen Hout) as (env'' & Hfull);
         [lia | congruence]. }
  rewrite (analyze_recorded env v Hlen Hout Hcount) in Hrun.
  simplify_eq. split; [done|]. split; [done|]. by exists v.
Qed.

(** Any failure other than the counter overflow happens before the first
    write to storage. *)
Lemma analyze_failure_store env e env' :
  analyze env = (inl e, env') →
  analysisCount (store env) < Uint256.MAX →
  store env' = store env.
Proof.
  intros Hrun Hcount.
  destruct (decide (length operations = length operationCounts)) as [Hlen|Hlen].
  2: { rewrite analyze_mismatch in Hrun by done. by simplify_eq. }
  destruct (outcome (store env) avgDataSize operations operationCounts
              startLocals) as [e'|v] eqn:Hout.
  - destruct (analyze_stopped env e' Hlen Hout) as (evs & Hstop).
    rewrite Hstop in Hrun. by simplify_eq.
  - rewrite (analyze_recorded env v Hlen Hout Hcount) in Hrun. done.
Qed.

End Analyze.

Lemma transact_inr {A} (m : Exec A) env a env' :
  transact m env = (inr a, env') ↔ m env = (inr a, env').
Proof.
  unfold transact. destruct (m env) as [[e|a'] env'']; split; congruence.
Qed.

Lemma transact_inl {A} (m : Exec A) env e env' :
  m env = (inl e, env') → transact m env = (inl e, env).
Proof. unfold transact. by intros ->. Qed.

Lemma estimate_run env operation dataSize :
  estimateSingleOperation operation dataSize env =
    (if decide (registered (store env) operation) then
       if decide (opGas (store env) dataSize operation <= Uint256.MAX)
       then inr (opGas (store env) dataSize operation)
       else inl ArithmeticOverflow
     else inl UnknownOperation, env).
Proof.
  unfold estimateSingleOperation, registered, opGas. exec_unfold.
  destruct (N.ltb_spec 0 (baseCost (costOf (store env) operation)));
    [rewrite decide_True by done | by rewrite decide_False by lia].
  simpl. destruct (decide _).
  - leb_cases; try done; lia.
  - leb_cases; try done; lia.
Qed.

Lemma updateOperationCost_run env operation base perByte :
  updateOperationCost operation base perByte env =
    (inr tt,
     mkEnv (setCost operation (mkOperationCost operation base perByte) (store env))
           (logs env ++ [OperationCostUpdated operation base perByte])).
Proof. reflexivity. Qed.

Lemma costOf_setCost s name c :
  costOf (setCost name c s) name = c.
Proof. unfold costOf, setCost. simpl. by rewrite lookup_insert_eq. Qed.

(** ** Properties of the analysis *)

Lemma gasSum_start s avg ops cs :
  totalGas (finalLocals s avg ops cs startLocals) = gasSum s avg ops cs.
Proof. unfold finalLocals. simpl. apply N.add_0_l. Qed.

Lemma countSum_start s avg ops cs :
  totalOps (finalLocals s avg ops cs startLocals) = countSum cs.
Proof. unfold finalLocals. simpl. apply N.add_0_l. Qed.

(** What a returned analysis contains, in terms of the input alone. *)
Lemma analyze_result env a name ops cs avg r env' :
  analyzeContract a name ops cs avg env = (inr r, env') →
  length ops = length cs ∧
  Forall (registered (store env)) ops ∧
  accumulates (store env) avg ops cs ∧
  r = analysisFrom name (finalLocals (store env) avg ops cs startLocals) ∧
  store env' = recorded a r (store env).
Proof.
  intros Hrun.
  apply analyze_inv in Hrun as (Hlen & Hcount & v & Hout & -> & ->).
  apply outcome_inv in Hout as (Hreg & Hfit & Hsum & ->); [|done|done].
  simpl in Hsum. rewrite N.add_0_l in Hsum.
  repeat split; done.
Qed.

(** C1, as amended: for every usage report with as many counts as
    operations, in which every listed operation is registered and whose
    accumulation is representable in 256 bits (each per-operation gas and the
    sum of all terms; the analysis counter below its maximum),
    [analyzeContract] returns an analysis whose [estimatedGas] is the sum of
    [(baseCost_i + perByteCost_i * avgDataSize) * counts_i] and whose
    [totalFheOps] is the sum of the counts. *)
Theorem analyze_totals env a name ops cs avg :
  length ops = length cs →
  Forall (registered (store env)) ops →
  accumulates (store env) avg ops cs →
  analysisCount (store env) < Uint256.MAX →
  ∃ r env',
    analyzeContract a name ops cs avg env = (inr r, env') ∧
    estimatedGas r = gasSum (store env) avg ops cs ∧
    totalFheOps r = countSum cs.
Proof.
  intros Hlen Hreg [Hfit Hsum] Hcount.
  pose proof (outcome_ok (store env) avg ops cs startLocals Hlen Hreg Hfit) as Hout.
  rewrite (analyze_recorded a name ops cs avg env _ Hlen (Hout Hsum) Hcount).
  do 2 eexists. split; [reflexivity|].
  unfold analysisFrom, estimatedGas, totalFheOps.
  by rewrite gasSum_start, countSum_start.
Qed.

Lemma analyze_totals_witness :
  ∃ r env',
    analyzeContract 7 "subject" ["FHE.mul"; "FHE.add"]%string [6; 2] 32 deployed
      = (inr r, env') ∧
    estimatedGas r
      = gasSum (store deployed) 32 ["FHE.mul"; "FHE.add"]%string [6; 2] ∧
    totalFheOps r = countSum [6; 2].
Proof.
  apply (analyze_totals deployed 7 "subject" ["FHE.mul"; "FHE.add"]%string [6; 2] 32).
  - reflexivity.
  - repeat constructor.
  - split; [repeat constructor; by vm_compute | by vm_compute].
  - reflexivity.
Defined.

(** C1 as stated fails: a registered operation with a count that makes the
    product exceed 256 bits makes the call revert instead of returning. *)
Lemma analyze_totals_counterexample :
  let ops := ["FHE.add"]%string in
  let cs := [Uint256.MAX] in
  length ops = length cs ∧
  Forall (registered (store deployed)) ops ∧
  ¬ ∃ r env',
      analyzeContract 7 "subject" ops cs 0 deployed = (inr r, env') ∧
      estimatedGas r = gasSum (store deployed) 0 ops cs ∧
      totalFheOps r = countSum cs.
Proof.
  split; [reflexivity|]. split; [repeat constructor|].
  intros (r & env' & Hrun & _).
  assert ((analyzeContract 7 "subject" ["FHE.add"]%string [Uint256.MAX] 0
             deployed).1 = inl ArithmeticOverflow) as Hfail by (by vm_compute).
  rewrite Hrun in Hfail. discriminate.
Qed.

(** C2: the suggestions of a returned analysis are exactly the texts for
    the positions [i] whose registry entry has [baseCost > 10000] and whose
    count is [> 5], one per such position and in input order. A base cost
    of exactly 10000 or a count of exactly 5 is not flagged; base cost
    10001 with count 6 is. *)
Theorem suggestions_flagged env a name ops cs avg r env' :
  analyzeContract a name ops cs avg env = (inr r, env') →
  optimizationSuggestions r =
    (λ p, suggestionText p.1 p.2) <$> filter (flagged (store env)) (zip ops cs)
  ∧ (∀ op c, flagged (store env) (op, c) ↔
             10000 < baseCost (costOf (store env) op) ∧ 5 < c)
  ∧ (∀ op c, baseCost (costOf (store env) op) = 10000 →
             ¬ flagged (store env) (op, c))
  ∧ (∀ op, ¬ flagged (store env) (op, 5))
  ∧ (∀ op, baseCost (costOf (store env) op) = 10001 →
           flagged (store env) (op, 6)).
Proof.
  intros Hrun. apply analyze_result in Hrun as (_ & _ & _ & -> & _).
  split; [reflexivity|].
  unfold flagged. simpl. repeat split; try lia; tauto.
Qed.

Lemma suggestions_flagged_witness :
  let env := deployed in
  let ops := ["FHE.mul"; "FHE.add"]%string in
  let cs := [6; 2] in
  let r := mkContractAnalysis "subject" 8 104480
             ["Consider reducing calls to FHE.mul (6 calls)"%string] in
  optimizationSuggestions r =
    (λ p, suggestionText p.1 p.2) <$> filter (flagged (store env)) (zip ops cs).
Proof.
  intros env ops cs r.
  refine (proj1 (suggestions_flagged env 7 "subject" ops cs 32 r
                   (analyzeContract 7 "subject" ops cs 32 env).2 _)).
  by vm_compute.
Defined.

(** C3, as amended: right after construction the registry holds its
    defaults under the keys ["FHE.mul"], ["FHE.add"], ..., and the batch
    [operations = ["FHE.mul"; "FHE.add"]], [counts = [6; 2]],
    [avgDataSize = 32] returns [estimatedGas = 104480], [totalFheOps = 8]
    and exactly one suggestion, for ["FHE.mul"]. *)
Theorem default_scenario (a : address) (name : string) :
  (analyzeContract a name ["FHE.mul"; "FHE.add"]%string [6; 2] 32 deployed).1 =
    inr (mkContractAnalysis name 8 104480
           [suggestionText "FHE.mul" 6]) ∧
  suggestionText "FHE.mul" 6 = "Consider reducing calls to FHE.mul (6 calls)"%string ∧
  flagged (store deployed) ("FHE.mul"%string, 6) ∧
  ¬ flagged (store deployed) ("FHE.add"%string, 2).
Proof.
  split; [|split; [reflexivity | split; [by vm_compute|]]].
  - assert (outcome (store deployed) 32 ["FHE.mul"; "FHE.add"]%string [6; 2]
              startLocals
            = inr (mkLocals 104480 8 [suggestionText "FHE.mul" 6])) as Hout
      by (by vm_compute).
    by rewrite (analyze_recorded a name ["FHE.mul"; "FHE.add"]%string [6; 2] 32
                  deployed _ eq_refl Hout eq_refl).
  - unfold flagged. simpl. intros [Hbase _]. by vm_compute in Hbase.
Qed.

(** C3 as stated fails: the default registry has no entry named ["mul"]
    or ["add"], so that batch is rejected as an unknown operation. *)
Lemma default_scenario_counterexample :
  analyzeContract 7 "subject" ["mul"; "add"]%string [6; 2] 32 deployed =
    (inl UnknownOperation, deployed) ∧
  costOf (store deployed) "mul" = zeroOperationCost ∧
  costOf (store deployed) "add" = zeroOperationCost.
Proof. by vm_compute. Qed.

(** C4: a report whose operations and counts differ in length is rejected
    with the length failure before anything else happens, so storage
    (keyed analyses, append log, counter) and logs are as before. *)
Theorem mismatch_rejected env a name ops cs avg :
  length ops ≠ length cs →
  analyzeContract a name ops cs avg env = (inl MismatchedInputLength, env) ∧
  transact (analyzeContract a name ops cs avg) env =
    (inl MismatchedInputLength, env).
Proof.
  intros Hlen.
  pose proof (analyze_mismatch a name ops cs avg env Hlen) as Hrun.
  split; [done | by apply transact_inl in Hrun].
Qed.

Lemma mismatch_rejected_witness :
  analyzeContract 7 "subject" ["FHE.add"]%string [] 32 deployed =
    (inl MismatchedInputLength, deployed) ∧
  transact (analyzeContract 7 "subject" ["FHE.add"]%string [] 32) deployed =
    (inl MismatchedInputLength, deployed).
Proof.
  apply (mismatch_rejected deployed 7 "subject" ["FHE.add"]%string [] 32).
  simpl. lia.
Defined.

(** The loop stops with the overflow panic when the accumulation over a
    registered front part of the batch is not representable, whatever
    follows that part. *)
Lemma outcome_overflow_prefix s avg pre rest : ∀ cs v,
  length (pre ++ rest) = length cs →
  Forall (registered s) pre →
  Exists (λ op, Uint256.MAX < opGas s avg op) pre ∨
  Uint256.MAX < totalGas v + gasSum s avg pre cs →
  totalGas v <= Uint256.MAX →
  outcome s avg (pre ++ rest) cs v = inl ArithmeticOverflow.
Proof.
  induction pre as [|op pre IH]; intros cs v Hlen Hreg Hov Hv.
  - destruct Hov as [Hex|Hsum]; [by inversion Hex|].
    simpl in Hsum. lia.
  - destruct cs as [|c cs]; simplify_eq/=.
    inversion_clear Hreg.
    rewrite decide_True by done.
    destruct (decide _) as [[Hfit Hsum]|]; [|done].
    apply IH; [done | done | | by unfold advance].
    destruct Hov as [Hex|Hov].
    + inversion Hex; subst; [lia | by left].
    + right. unfold advance. simpl. lia.
Qed.

(** C5, as amended: a report (as many counts as operations) that lists an
    unregistered operation makes [analyzeContract] fail before any write to
    storage, however many registered operations precede it: no analysis is
    returned and the keyed analyses, the append log and the counter are
    unchanged. The failure is the unknown-operation one when the
    accumulation over the operations before the first unregistered one is
    representable, and the overflow panic of an earlier position else. *)
Theorem unknown_operation_aborts env a name ops cs avg :
  length ops = length cs →
  Exists (λ op, ¬ registered (store env) op) ops →
  ∃ e env1,
    analyzeContract a name ops cs avg env = (inl e, env1) ∧
    store env1 = store env ∧
    transact (analyzeContract a name ops cs avg) env = (inl e, env) ∧
    (e = UnknownOperation ∨ e = ArithmeticOverflow) ∧
    (∀ pre bad rest,
       ops = pre ++ bad :: rest →
       Forall (registered (store env)) pre →
       ¬ registered (store env) bad →
       accumulates (store env) avg pre cs →
       e = UnknownOperation) ∧
    (∀ pre bad rest,
       ops = pre ++ bad :: rest →
       Forall (registered (store env)) pre →
       ¬ registered (store env) bad →
       ¬ accumulates (store env) avg pre cs →
       e = ArithmeticOverflow).
Proof.
  intros Hlen Hex.
  destruct (outcome (store env) avg ops cs startLocals) as [e|v] eqn:Hout.
  2: { destruct (outcome_unregistered (store env) avg ops cs startLocals Hlen Hex);
         congruence. }
  destruct (analyze_stopped a name ops cs avg env e Hlen Hout) as (evs & Hrun).
  exists e, (mkEnv (store env) (logs env ++ evs)).
  split; [done|]. split; [done|]. split; [by apply transact_inl in Hrun|].
  split.
  - destruct (outcome_unregistered (store env) avg ops cs startLocals Hlen Hex);
      [left | right]; congruence.
  - split.
    + intros pre bad rest -> Hreg Hbad [Hfit Hsum].
      rewrite (outcome_unknown (store env) avg pre bad rest cs startLocals)
        in Hout; [congruence | done..].
    + intros pre bad rest -> Hreg Hbad Hacc.
      rewrite (outcome_overflow_prefix (store env) avg pre (bad :: rest) cs
                 startLocals) in Hout; [congruence | done | done | | done].
      unfold accumulates in Hacc. apply not_and_l in Hacc as [Hfit|Hsum].
      * left. apply not_Forall_Exists in Hfit; [|apply _].
        eapply Exists_impl; [exact Hfit|].
        intros op Hop. unfold compose in Hop. lia.
      * right. simpl. lia.
Qed.

Lemma unknown_operation_aborts_witness :
  ∃ e env1,
    analyzeContract 7 "subject" ["FHE.add"; "bogus"]%string [1; 1] 32 deployed
      = (inl e, env1) ∧
    store env1 = store deployed ∧
    transact (analyzeContract 7 "subject" ["FHE.add"; "bogus"]%string [1; 1] 32)
      deployed = (inl e, deployed) ∧
    (e = UnknownOperation ∨ e = ArithmeticOverflow) ∧
    (∀ pre bad rest,
       ["FHE.add"; "bogus"]%string = pre ++ bad :: rest →
       Forall (registered (store deployed)) pre →
       ¬ registered (store deployed) bad →
       accumulates (store deployed) 32 pre [1; 1] →
       e = UnknownOperation) ∧
    (∀ pre bad rest,
       ["FHE.add"; "bogus"]%string = pre ++ bad :: rest →
       Forall (registered (store deployed)) pre →
       ¬ registered (store deployed) bad →
       ¬ accumulates (store deployed) 32 pre [1; 1] →
       e = ArithmeticOverflow).
Proof.
  apply (unknown_operation_aborts deployed 7 "subject"
           ["FHE.add"; "bogus"]%string [1; 1] 32).
  - reflexivity.
  - apply Exists_cons_tl, Exists_cons_hd. by vm_compute.
Defined.

(** C5 as stated fails: when a registered operation in front of the
    unregistered one overflows the accumulation, the call fails with the
    overflow panic, not with the unknown-operation failure. *)
Lemma unknown_operation_counterexample :
  let ops := ["FHE.add"; "bogus"]%string in
  let cs := [Uint256.MAX; 1] in
  length ops = length cs ∧
  Exists (λ op, ¬ registered (store deployed) op) ops ∧
  (analyzeContract 7 "subject" ops cs 0 deployed).1 = inl ArithmeticOverflow ∧
  (analyzeContract 7 "subject" ops cs 0 deployed).1 ≠ inl UnknownOperation.
Proof.
  split; [reflexivity|]. split.
  { apply Exists_cons_tl, Exists_cons_hd. by vm_compute. }
  split; by vm_compute.
Qed.

(** C6: after [updateOperationCost name 0 0], [estimateSingleOperation name]
    fails as an unknown operation for every name and every data size: a zero
    base cost is read as absence, not as a free operation. *)
Theorem zero_cost_unregisters env name dataSize :
  let env1 := (transact (updateOperationCost name 0 0) env).2 in
  (transact (updateOperationCost name 0 0) env).1 = inr tt ∧
  ¬ registered (store env1) name ∧
  estimateSingleOperation name dataSize env1 = (inl UnknownOperation, env1) ∧
  transact (estimateSingleOperation name dataSize) env1 =
    (inl UnknownOperation, env1).
Proof.
  unfold transact. rewrite updateOperationCost_run. simpl.
  assert (¬ registered
            (setCost name (mkOperationCost name 0 0) (store env)) name) as Hreg.
  { unfold registered. rewrite costOf_setCost. simpl. lia. }
  split; [done|]. split; [done|].
  rewrite estimate_run. simpl. by rewrite decide_False.
Qed.

(** C7, as amended: for a registered operation and a data size for which
    [baseCost + perByteCost * dataSize] is representable in 256 bits,
    [estimateSingleOperation] returns exactly that sum and changes nothing
    (size 0 included); for a larger data size it fails with the overflow
    panic. *)
Theorem estimate_exact env name dataSize :
  registered (store env) name →
  let cost := costOf (store env) name in
  (baseCost cost + perByteCost cost * dataSize <= Uint256.MAX →
   estimateSingleOperation name dataSize env =
     (inr (baseCost cost + perByteCost cost * dataSize), env)) ∧
  (Uint256.MAX < baseCost cost + perByteCost cost * dataSize →
   estimateSingleOperation name dataSize env = (inl ArithmeticOverflow, env)).
Proof.
  intros Hreg cost. rewrite estimate_run. rewrite decide_True by done.
  unfold opGas. fold cost. split; intros H.
  - by rewrite decide_True.
  - by rewrite decide_False by lia.
Qed.

Lemma estimate_exact_witness :
  estimateSingleOperation "FHE.mul" 32 deployed = (inr 15640, deployed) ∧
  estimateSingleOperation "FHE.mul" 0 deployed = (inr 15000, deployed) ∧
  estimateSingleOperation "FHE.mul" 1 deployed = (inr 15020, deployed).
Proof.
  split; [|split].
  - apply (estimate_exact deployed "FHE.mul" 32); by vm_compute.
  - apply (estimate_exact deployed "FHE.mul" 0); by vm_compute.
  - apply (estimate_exact deployed "FHE.mul" 1); by vm_compute.
Defined.

(** C7 as stated fails: for a registered operation and a large data size
    the call reverts instead of returning the sum. *)
Lemma estimate_exact_counterexample :
  registered (store deployed) "FHE.add" ∧
  estimateSingleOperation "FHE.add" Uint256.MAX deployed =
    (inl ArithmeticOverflow, deployed) ∧
  ¬ ∃ env',
      estimateSingleOperation "FHE.add" Uint256.MAX deployed =
        (inr (baseCost (costOf (store deployed) "FHE.add") +
              perByteCost (costOf (store deployed) "FHE.add") * Uint256.MAX),
         env').
Proof.
  assert (estimateSingleOperation "FHE.add" Uint256.MAX deployed =
            (inl ArithmeticOverflow, deployed)) as Hrun by (by vm_compute).
  split; [by vm_compute|]. split; [done|].
  intros [env' Hok]. rewrite Hrun in Hok. discriminate.
Qed.

(** With registered operations every count is covered by its gas term, so
    the operation total never overflows before the gas total does. *)
Lemma countSum_le_gasSum s avg ops : ∀ cs,
  length ops = length cs →
  Forall (registered s) ops →
  countSum cs <= gasSum s avg ops cs.
Proof.
  induction ops as [|op ops IH]; intros [|c cs] Hlen Hreg; simplify_eq/=; [done|].
  inversion_clear Hreg.
  assert (c <= opGas s avg op * c) by (unfold registered, opGas in *; nia).
  specialize (IH cs ltac:(done) ltac:(done)). unfold countSum in *. simpl. lia.
Qed.

(** C8: the arithmetic of [analyzeContract] and [estimateSingleOperation] is
    overflow-checked, product before sum. A batch of registered operations
    whose accumulation is not representable in 256 bits fails with the
    overflow panic before any write to storage; an estimate that is not
    representable fails with the same panic; and a value that is returned is
    the exact, unwrapped one. *)
Theorem overflow_is_fatal env :
  (∀ a name ops cs avg,
     length ops = length cs →
     Forall (registered (store env)) ops →
     ¬ accumulates (store env) avg ops cs →
     ∃ env1,
       analyzeContract a name ops cs avg env = (inl ArithmeticOverflow, env1) ∧
       store env1 = store env ∧
       transact (analyzeContract a name ops cs avg) env =
         (inl ArithmeticOverflow, env)) ∧
  (∀ name dataSize,
     registered (store env) name →
     Uint256.MAX < opGas (store env) dataSize name →
     estimateSingleOperation name dataSize env = (inl ArithmeticOverflow, env)) ∧
  (∀ a name ops cs avg r env',
     analyzeContract a name ops cs avg env = (inr r, env') →
     estimatedGas r = gasSum (store env) avg ops cs ∧
     totalFheOps r = countSum cs ∧
     estimatedGas r <= Uint256.MAX ∧ totalFheOps r <= Uint256.MAX) ∧
  (∀ name dataSize g env',
     estimateSingleOperation name dataSize env = (inr g, env') →
     g = opGas (store env) dataSize name ∧ g <= Uint256.MAX).
Proof.
  split; [|split; [|split]].
  - intros a name ops cs avg Hlen Hreg Hacc.
    assert (outcome (store env) avg ops cs startLocals = inl ArithmeticOverflow)
      as Hout.
    { apply outcome_overflow; [done | done | | done].
      unfold accumulates in Hacc. apply not_and_l in Hacc as [Hfit|Hsum].
      - left. apply not_Forall_Exists in Hfit; [|apply _].
        eapply Exists_impl; [exact Hfit|].
        intros op Hop. unfold compose in Hop. lia.
      - right. simpl. lia. }
    destruct (analyze_stopped a name ops cs avg env _ Hlen Hout) as (evs & Hrun).
    eexists. split; [exact Hrun|]. split; [done|].
    by apply transact_inl in Hrun.
  - intros name dataSize Hreg Hov. rewrite estimate_run.
    rewrite decide_True by done. by rewrite decide_False by lia.
  - intros a name ops cs avg r env' Hrun.
    apply analyze_result in Hrun as (Hlen & Hreg & [_ Hsum] & -> & _).
    unfold analysisFrom, estimatedGas, totalFheOps.
    rewrite gasSum_start, countSum_start.
    pose proof (countSum_le_gasSum (store env) avg ops cs Hlen Hreg).
    repeat split; [done | lia].
  - intros name dataSize g env' Hrun. rewrite estimate_run in Hrun.
    repeat case_decide; by simplify_eq.
Qed.

Lemma overflow_is_fatal_witness :
  (∃ env1,
     analyzeContract 7 "subject" ["FHE.add"]%string [Uint256.MAX] 0 deployed =
       (inl ArithmeticOverflow, env1) ∧
     store env1 = store deployed ∧
     transact (analyzeContract 7 "subject" ["FHE.add"]%string [Uint256.MAX] 0)
       deployed = (inl ArithmeticOverflow, deployed)) ∧
  estimateSingleOperation "FHE.add" Uint256.MAX deployed =
    (inl ArithmeticOverflow, deployed).
Proof.
  destruct (overflow_is_fatal deployed) as (Hanalyze & Hestimate & _).
  split.
  - apply (Hanalyze 7 "subject" ["FHE.add"]%string [Uint256.MAX] 0).
    + reflexivity.
    + repeat constructor.
    + intros [_ Hsum]. by vm_compute in Hsum.
  - apply (Hestimate "FHE.add" Uint256.MAX); by vm_compute.
Defined.

(** ** Properties of the analysis store *)

Lemma analysisOf_recorded a r s : analysisOf (recorded a r s) a = r.
Proof. unfold analysisOf, recorded. simpl. by rewrite lookup_insert_eq. Qed.

(** A successful [analyzeContract] leaves the registry as it was. *)
Lemma costOf_recorded a r s name : costOf (recorded a r s) name = costOf s name.
Proof. reflexivity. Qed.

(** C9: when the same subject is analysed twice in succession, with two
    reports that both succeed, [getAnalysis] afterwards returns the second
    result alone, which is what the second report gives on its own (name,
    totals and suggestions; nothing of the first remains), while
    [getAllAnalyzedContracts] returns the append log in recording order with
    the subject in it twice: each successful call lengthens it by one. *)
Theorem reanalysis_overwrites env a
    name1 ops1 cs1 avg1 r1 env1 name2 ops2 cs2 avg2 r2 env2 :
  transact (analyzeContract a name1 ops1 cs1 avg1) env = (inr r1, env1) →
  transact (analyzeContract a name2 ops2 cs2 avg2) env1 = (inr r2, env2) →
  transact (getAnalysis a) env2 = (inr r2, env2) ∧
  r2 = analysisFrom name2 (finalLocals (store env) avg2 ops2 cs2 startLocals) ∧
  transact getAllAnalyzedContracts env1 =
    (inr (analyzedContracts (store env) ++ [a]), env1) ∧
  transact getAllAnalyzedContracts env2 =
    (inr (analyzedContracts (store env) ++ [a; a]), env2) ∧
  length (analyzedContracts (store env1)) =
    S (length (analyzedContracts (store env))) ∧
  length (analyzedContracts (store env2)) =
    S (length (analyzedContracts (store env1))).
Proof.
  intros Hfirst Hsecond.
  apply transact_inr, analyze_result in Hfirst as (_ & _ & _ & _ & Hs1).
  apply transact_inr, analyze_result in Hsecond as (_ & _ & _ & Hr2 & Hs2).
  assert (analyzedContracts (store env1) = analyzedContracts (store env) ++ [a])
    as Hlog1 by (by rewrite Hs1).
  assert (analyzedContracts (store env2) = analyzedContracts (store env) ++ [a; a])
    as Hlog2 by (rewrite Hs2; simpl; rewrite Hlog1, <- app_assoc; done).
  split; [|split; [|split; [|split; [|split]]]].
  - unfold transact, getAnalysis. exec_unfold.
    by rewrite Hs2, analysisOf_recorded.
  - rewrite Hr2. f_equal. clear Hr2 Hs2 Hlog1 Hlog2.
    unfold finalLocals. f_equal.
    + f_equal. revert cs2. induction ops2 as [|op ops IH]; intros [|c cs];
        simpl; try done.
      rewrite IH. unfold opGas. by rewrite Hs1.
    + f_equal. unfold suggestionsFor. f_equal.
      apply list_filter_iff. intros [op c]. unfold flagged. simpl. by rewrite Hs1.
  - unfold transact, getAllAnalyzedContracts. exec_unfold. by rewrite Hlog1.
  - unfold transact, getAllAnalyzedContracts. exec_unfold. by rewrite Hlog2.
  - rewrite Hlog1, length_app. simpl. lia.
  - rewrite Hlog2, Hlog1, !length_app. simpl. lia.
Qed.

Lemma reanalysis_overwrites_witness :
  let first := analyzeContract 7 "first" ["FHE.mul"; "FHE.add"]%string [6; 2] 32 in
  let second := analyzeContract 7 "second" ["FHE.div"]%string [9] 4 in
  let env1 := (transact first deployed).2 in
  let env2 := (transact second env1).2 in
  let r2 := mkContractAnalysis "second" 9 180900
              ["Consider reducing calls to FHE.div (9 calls)"%string] in
  transact (getAnalysis 7) env2 = (inr r2, env2) ∧
  transact getAllAnalyzedContracts env2 = (inr [7; 7], env2).
Proof.
  intros first second env1 env2 r2.
  pose proof (reanalysis_overwrites deployed 7
                "first" ["FHE.mul"; "FHE.add"]%string [6; 2] 32
                (mkContractAnalysis "first" 8 104480
                   ["Consider reducing calls to FHE.mul (6 calls)"%string])
                env1
                "second" ["FHE.div"]%string [9] 4 r2 env2) as H.
  destruct H as (Hget & _ & _ & Hlist & _); [by vm_compute | by vm_compute |].
  split; [exact Hget | exact Hlist].
Defined.

Lemma step_view {A} (m : Exec A) env :
  (∀ env0, (m env0).2 = env0) →
  (transact (void m) env).2 = env.
Proof.
  intros Hm. unfold transact, void, bind. specialize (Hm env).
  by destruct (m env) as [[e|x] env'']; simpl in *; subst.
Qed.

Lemma step_effect env c :
  match c with
  | CallAnalyzeContract a name ops cs avg =>
      match (transact (analyzeContract a name ops cs avg) env).1 with
      | inr _ => appended a env (step env c)
      | inl _ => step env c = env
      end
  | CallUpdateOperationCost _ _ _ => untouched env (step env c)
  | _ => step env c = env
  end.
Proof.
  destruct c as [op b p|a name ops cs avg|a|op d| |op|a|i|]; unfold step, dispatch.
  - done.
  - unfold transact, void, bind.
    destruct (analyzeContract a name ops cs avg env) as [[e|r] env'] eqn:Hrun;
      simpl; [done|].
    apply analyze_result in Hrun as (_ & _ & _ & _ & Hs).
    unfold appended, ret. simpl. by rewrite Hs.
  - by apply step_view.
  - apply step_view. intros env0. by rewrite estimate_run.
  - by apply step_view.
  - by apply step_view.
  - by apply step_view.
  - apply step_view. intros env0. exec_unfold.
    by destruct (analyzedContracts (store env0) !! i).
  - by apply step_view.
Qed.

(** C10: in every state the contract can be in (after construction and
    any sequence of calls) the analysis counter equals the length of the
    append log; a call either leaves both unchanged or, when it is a
    successful [analyzeContract], adds one to the counter and one entry to
    the log. *)
Theorem count_matches_log :
  (∀ calls : list Call,
     analysisCount (store (run calls)) =
     N.of_nat (length (analyzedContracts (store (run calls))))) ∧
  (∀ env c,
     untouched env (step env c) ∨
     ∃ a name ops cs avg r,
       c = CallAnalyzeContract a name ops cs avg ∧
       (transact (analyzeContract a name ops cs avg) env).1 = inr r ∧
       appended a env (step env c)).
Proof.
  assert (∀ env c,
     untouched env (step env c) ∨
     ∃ a name ops cs avg r,
       c = CallAnalyzeContract a name ops cs avg ∧
       (transact (analyzeContract a name ops cs avg) env).1 = inr r ∧
       appended a env (step env c)) as Hstep.
  { intros env c. pose proof (step_effect env c) as Heff.
    destruct c as [op b p|a name ops cs avg|a|op d| |op|a|i|];
      try (left; by rewrite ?Heff).
    destruct ((transact (analyzeContract a name ops cs avg) env).1)
      as [e|r] eqn:Hres.
    - left. by rewrite Heff.
    - right. by exists a, name, ops, cs, avg, r. }
  split; [|exact Hstep].
  intros calls. unfold run.
  induction calls as [|c calls IH] using rev_ind; [reflexivity|].
  rewrite foldl_app. simpl.
  destruct (Hstep (foldl step deployed calls) c)
    as [[Hn Hl]|(a & _ & _ & _ & _ & _ & _ & _ & [Hn Hl])].
  - by rewrite Hn, Hl.
  - rewrite Hn, Hl, IH, length_app. simpl. lia.
Qed.

(** ** Further properties of the cost registry *)

(** The estimate for a name reads nothing but the registry entry of it. *)
Lemma estimate_depends_on_entry env env' name dataSize :
  costOf (store env) name = costOf (store env') name →
  (estimateSingleOperation name dataSize env).1 =
  (estimateSingleOperation name dataSize env').1.
Proof.
  intros Hcost. rewrite !estimate_run. simpl.
  assert (registered (store env) name ↔ registered (store env') name)
    by (unfold registered; by rewrite Hcost).
  assert (opGas (store env) dataSize name = opGas (store env') dataSize name)
    by (unfold opGas; by rewrite Hcost).
  repeat case_decide; try tauto; try lia; congruence.
Qed.

(** X1 ([appendString]): the returned array is one longer than the given
    one, holds the given entries at their positions and the new element in
    the last slot. *)
Theorem appendString_extends (array : list string) (element : string) :
  length (appendString array element) = S (length array) ∧
  (∀ i x, array !! i = Some x → appendString array element !! i = Some x) ∧
  appendString array element !! length array = Some element ∧
  appendString array element = array ++ [element].
Proof.
  rewrite appendString_snoc. split; [|split; [|split]].
  - rewrite length_app. simpl. lia.
  - intros i x Hx. by apply lookup_app_l_Some.
  - rewrite lookup_app_r by lia. by rewrite Nat.sub_diag.
  - reflexivity.
Qed.

Lemma appendString_extends_witness :
  appendString ["a"; "b"]%string "c" !! 1%nat = Some "b"%string.
Proof.
  destruct (appendString_extends ["a"; "b"]%string "c") as (_ & Hkeep & _).
  apply Hkeep. reflexivity.
Defined.

(** X2 ([estimateSingleOperation], missing key): for a name that was
    never written to the registry the mapping reads as the zero entry, and
    the estimate fails as an unknown operation for every data size, without
    any effect. *)
Theorem estimate_missing env name dataSize :
  operationCosts (store env) !! name = None →
  costOf (store env) name = zeroOperationCost ∧
  estimateSingleOperation name dataSize env = (inl UnknownOperation, env).
Proof.
  intros Hnone.
  assert (costOf (store env) name = zeroOperationCost) as Hzero
    by (unfold costOf; by rewrite Hnone).
  split; [done|]. rewrite estimate_run, decide_False; [done|].
  unfold registered. rewrite Hzero. simpl. lia.
Qed.

Lemma estimate_missing_witness :
  costOf (store deployed) "FHE.bootstrap" = zeroOperationCost ∧
  estimateSingleOperation "FHE.bootstrap" 64 deployed =
    (inl UnknownOperation, deployed).
Proof. apply (estimate_missing deployed "FHE.bootstrap" 64). by vm_compute. Defined.

(** X3 ([updateOperationCost] then [estimateSingleOperation]): after a cost
    with a nonzero base is written for a name, the estimate for that name
    uses exactly the written parameters, whatever the registry held before,
    as long as the sum is representable in 256 bits. *)
Theorem update_then_estimate env name base perByte dataSize :
  0 < base →
  base + perByte * dataSize <= Uint256.MAX →
  let env1 := (transact (updateOperationCost name base perByte) env).2 in
  costOf (store env1) name = mkOperationCost name base perByte ∧
  estimateSingleOperation name dataSize env1 =
    (inr (base + perByte * dataSize), env1).
Proof.
  intros Hbase Hfit. unfold transact. rewrite updateOperationCost_run. simpl.
  split; [apply costOf_setCost|].
  set (s1 := setCost name (mkOperationCost name base perByte) (store env)).
  assert (registered s1 name) as Hreg
    by (unfold registered, s1; by rewrite costOf_setCost).
  assert (opGas s1 dataSize name = base + perByte * dataSize) as Hgas
    by (unfold opGas, s1; by rewrite costOf_setCost).
  rewrite estimate_run. simpl. rewrite decide_True by done.
  rewrite decide_True by (by rewrite Hgas). by rewrite Hgas.
Qed.

Lemma update_then_estimate_witness :
  let env1 := (transact (updateOperationCost "FHE.bootstrap" 90000 40) deployed).2 in
  costOf (store env1) "FHE.bootstrap" = mkOperationCost "FHE.bootstrap" 90000 40 ∧
  estimateSingleOperation "FHE.bootstrap" 64 env1 = (inr (90000 + 40 * 64), env1).
Proof.
  apply (update_then_estimate deployed "FHE.bootstrap" 90000 40 64); by vm_compute.
Defined.

(** X4 ([updateOperationCost], frame): writing the cost of one name always
    succeeds, leaves the entry and the estimate of every other name as they
    were, does not touch the analysis store, and logs exactly one
    [OperationCostUpdated] event with the written values. *)
Theorem update_frame env name base perByte other dataSize :
  other ≠ name →
  let env1 := (transact (updateOperationCost name base perByte) env).2 in
  (transact (updateOperationCost name base perByte) env).1 = inr tt ∧
  costOf (store env1) other = costOf (store env) other ∧
  (estimateSingleOperation other dataSize env1).1 =
    (estimateSingleOperation other dataSize env).1 ∧
  contractAnalyses (store env1) = contractAnalyses (store env) ∧
  analyzedContracts (store env1) = analyzedContracts (store env) ∧
  analysisCount (store env1) = analysisCount (store env) ∧
  logs env1 = logs env ++ [OperationCostUpdated name base perByte].
Proof.
  intros Hne. unfold transact. rewrite updateOperationCost_run. simpl.
  assert (costOf (setCost name (mkOperationCost name base perByte) (store env))
            other = costOf (store env) other) as Hother.
  { unfold costOf, setCost. simpl. by rewrite lookup_insert_ne. }
  split; [done|]. split; [done|]. split; [|done].
  by apply estimate_depends_on_entry.
Qed.

Lemma update_frame_witness :
  let env1 := (transact (updateOperationCost "FHE.mul" 1 1) deployed).2 in
  (estimateSingleOperation "FHE.add" 32 env1).1 =
    (estimateSingleOperation "FHE.add" 32 deployed).1.
Proof.
  intros env1.
  destruct (update_frame deployed "FHE.mul" 1 1 "FHE.add" 32)
    as (_ & _ & Hest & _); [done | exact Hest].
Defined.

(** X5 ([updateOperationCost], overwrite): an entry is replaced as a
    whole, so two writes to one name leave the storage of the second write
    alone; only the log keeps both events. *)
Theorem update_overwrites env name base1 perByte1 base2 perByte2 :
  let twice :=
    (transact (updateOperationCost name base2 perByte2)
       (transact (updateOperationCost name base1 perByte1) env).2).2 in
  let once := (transact (updateOperationCost name base2 perByte2) env).2 in
  store twice = store once ∧
  logs twice = logs env ++ [OperationCostUpdated name base1 perByte1;
                            OperationCostUpdated name base2 perByte2].
Proof.
  unfold transact. rewrite !updateOperationCost_run. simpl.
  unfold setCost. simpl. rewrite insert_insert_eq.
  split; [done | by rewrite <- app_assoc].
Qed.

(** X6 ([updateOperationCost], independence): writes to two different
    names can be made in either order with the same resulting storage. *)
Theorem update_commutes env name1 base1 perByte1 name2 base2 perByte2 :
  name1 ≠ name2 →
  store (transact (updateOperationCost name2 base2 perByte2)
           (transact (updateOperationCost name1 base1 perByte1) env).2).2 =
  store (transact (updateOperationCost name1 base1 perByte1)
           (transact (updateOperationCost name2 base2 perByte2) env).2).2.
Proof.
  intros Hne. unfold transact. rewrite !updateOperationCost_run. simpl.
  unfold setCost. simpl. f_equal. by apply insert_insert_ne.
Qed.

Lemma update_commutes_witness :
  store (transact (updateOperationCost "FHE.mul" 2 3)
           (transact (updateOperationCost "FHE.add" 1 1) deployed).2).2 =
  store (transact (updateOperationCost "FHE.add" 1 1)
           (transact (updateOperationCost "FHE.mul" 2 3) deployed).2).2.
Proof. apply (update_commutes deployed "FHE.add" 1 1 "FHE.mul" 2 3). done. Defined.

(** ** Further properties of the analysis *)

Lemma outcome_failure s avg ops : ∀ cs v e,
  outcome s avg ops cs v = inl e →
  (e = UnknownOperation ∧ Exists (λ op, ¬ registered s op) ops) ∨
  e = ArithmeticOverflow.
Proof.
  induction ops as [|op ops IH]; intros [|c cs] v e Hout; simplify_eq/=.
  destruct (decide (registered s op)) as [Hreg|Hreg].
  2: { left. simplify_eq. split; [done | by apply Exists_cons_hd]. }
  destruct (decide _); [|right; by simplify_eq].
  apply IH in Hout as [[-> Hex]| ->]; [left | by right].
  split; [done | by apply Exists_cons_tl].
Qed.

(** X7 ([analyzeContract], when it returns): the call returns an analysis
    exactly when the two arrays have the same length, every listed
    operation is registered, the accumulation is representable in 256 bits
    and the analysis counter can still be incremented. *)
Theorem analyze_succeeds_iff env a name ops cs avg :
  (∃ r env', analyzeContract a name ops cs avg env = (inr r, env')) ↔
  length ops = length cs ∧
  Forall (registered (store env)) ops ∧
  accumulates (store env) avg ops cs ∧
  analysisCount (store env) < Uint256.MAX.
Proof.
  split.
  - intros (r & env' & Hrun).
    pose proof (analyze_inv a name ops cs avg env r env' Hrun)
      as (Hlen & Hcount & _).
    apply analyze_result in Hrun as (_ & Hreg & Hacc & _). done.
  - intros (Hlen & Hreg & [Hfit Hsum] & Hcount).
    pose proof (outcome_ok (store env) avg ops cs startLocals Hlen Hreg Hfit)
      as Hout.
    rewrite (analyze_recorded a name ops cs avg env _ Hlen (Hout Hsum) Hcount).
    eauto.
Qed.

Lemma analyze_succeeds_iff_witness :
  ∃ r env',
    analyzeContract 7 "subject" ["FHE.div"; "FHE.not"]%string [3; 4] 16 deployed
      = (inr r, env').
Proof.
  apply (analyze_succeeds_iff deployed 7 "subject"
           ["FHE.div"; "FHE.not"]%string [3; 4] 16).
  split; [reflexivity|]. split; [repeat constructor|].
  split; [|reflexivity].
  split; [repeat constructor; by vm_compute | by vm_compute].
Defined.

(** X8 ([analyzeContract], how it fails): a failing call fails for one of
    three reasons: the length check (exactly when the lengths differ), an
    unregistered operation in the list, or an arithmetic overflow. The
    length check keeps every [operationCounts[i]] in range, so the call
    never fails with the out-of-bounds panic. *)
Theorem analyze_failure_reasons env a name ops cs avg e env' :
  analyzeContract a name ops cs avg env = (inl e, env') →
  ((e = MismatchedInputLength ∧ length ops ≠ length cs) ∨
   (e = UnknownOperation ∧ length ops = length cs ∧
    Exists (λ op, ¬ registered (store env) op) ops) ∨
   (e = ArithmeticOverflow ∧ length ops = length cs)) ∧
  e ≠ Panic PANIC_OUT_OF_BOUNDS.
Proof.
  intros Hrun.
  assert ((e = MismatchedInputLength ∧ length ops ≠ length cs) ∨
          (e = UnknownOperation ∧ length ops = length cs ∧
           Exists (λ op, ¬ registered (store env) op) ops) ∨
          (e = ArithmeticOverflow ∧ length ops = length cs)) as Hcases.
  { destruct (decide (length ops = length cs)) as [Hlen|Hlen].
    2: { rewrite analyze_mismatch in Hrun by done. left. by simplify_eq. }
    right.
    destruct (outcome (store env) avg ops cs startLocals) as [e'|v] eqn:Hout.
    - destruct (analyze_stopped a name ops cs avg env e' Hlen Hout)
        as (evs & Hstop).
      rewrite Hstop in Hrun. simplify_eq.
      apply outcome_failure in Hout as [[-> Hex]| ->]; [by left | by right].
    - destruct (decide (analysisCount (store env) < Uint256.MAX)) as [Hc|Hc].
      + by rewrite (analyze_recorded a name ops cs avg env v Hlen Hout Hc) in Hrun.
      + destruct (analyze_counter_full a name ops cs avg env v Hlen Hout)
          as (env'' & Hfull); [lia|].
        rewrite Hfull in Hrun. right. by simplify_eq. }
  split; [done|].
  destruct Hcases as [[-> _]|[[-> _]|[-> _]]]; discriminate.
Qed.

Lemma analyze_failure_reasons_witness :
  ((UnknownOperation = MismatchedInputLength ∧ length ["bogus"%string] ≠ length [1]) ∨
   (UnknownOperation = UnknownOperation ∧ length ["bogus"%string] = length [1] ∧
    Exists (λ op, ¬ registered (store deployed) op) ["bogus"%string]) ∨
   (UnknownOperation = ArithmeticOverflow ∧ length ["bogus"%string] = length [1])) ∧
  UnknownOperation ≠ Panic PANIC_OUT_OF_BOUNDS.
Proof.
  apply (analyze_failure_reasons deployed 7 "subject" ["bogus"%string] [1] 32
           UnknownOperation deployed).
  by vm_compute.
Defined.

(** X9 ([analyzeContract], events): a call that returns logs one
    [OptimizationSuggested] event per returned suggestion, in order, each
    carrying the analysed address, and then one [ContractAnalyzed] event
    with the address and the returned gas estimate. *)
Theorem analyze_events env a name ops cs avg r env' :
  analyzeContract a name ops cs avg env = (inr r, env') →
  logs env' =
    logs env ++ (OptimizationSuggested a <$> optimizationSuggestions r) ++
    [ContractAnalyzed a (estimatedGas r)].
Proof.
  intros Hrun.
  apply analyze_inv in Hrun as (Hlen & _ & v & Hout & -> & ->).
  apply outcome_inv in Hout as (_ & _ & _ & ->); done.
Qed.

Lemma analyze_events_witness :
  let run := analyzeContract 7 "subject" ["FHE.mul"; "FHE.add"]%string [6; 2] 32
               deployed in
  logs run.2 =
    logs deployed ++
    (OptimizationSuggested 7 <$>
       ["Consider reducing calls to FHE.mul (6 calls)"%string]) ++
    [ContractAnalyzed 7 104480].
Proof.
  intros run.
  apply (analyze_events deployed 7 "subject" ["FHE.mul"; "FHE.add"]%string
           [6; 2] 32
           (mkContractAnalysis "subject" 8 104480
              ["Consider reducing calls to FHE.mul (6 calls)"%string])
           run.2).
  by vm_compute.
Defined.

(** X10 ([analyzeContract], frame): a call that returns stores its result
    under the analysed address and nothing else: the analysis of every other
    address and the whole cost registry are as before. *)
Theorem analyze_frame env a name ops cs avg r env' b :
  analyzeContract a name ops cs avg env = (inr r, env') →
  b ≠ a →
  analysisOf (store env') a = r ∧
  analysisOf (store env') b = analysisOf (store env) b ∧
  contractAnalyses (store env') !! b = contractAnalyses (store env) !! b ∧
  operationCosts (store env') = operationCosts (store env).
Proof.
  intros Hrun Hne. apply analyze_result in Hrun as (_ & _ & _ & _ & ->).
  unfold analysisOf, recorded. simpl.
  rewrite lookup_insert_eq, lookup_insert_ne by done. done.
Qed.

Lemma analyze_frame_witness :
  let first := analyzeContract 7 "seven" ["FHE.mul"]%string [1] 0 deployed in
  let second := analyzeContract 8 "eight" ["FHE.add"]%string [2] 0 first.2 in
  analysisOf (store second.2) 8 = mkContractAnalysis "eight" 2 10000 [] ∧
  analysisOf (store second.2) 7 = analysisOf (store first.2) 7 ∧
  contractAnalyses (store second.2) !! 7 = contractAnalyses (store first.2) !! 7 ∧
  operationCosts (store second.2) = operationCosts (store first.2).
Proof.
  intros first second.
  apply (analyze_frame first.2 8 "eight" ["FHE.add"]%string [2] 0
           (mkContractAnalysis "eight" 2 10000 []) second.2 7).
  - by vm_compute.
  - done.
Defined.

(** X11 ([analyzeContract], empty batch): with no operations at all the
    loop does not run, and the call still records an analysis with zero
    totals and no suggestions, which replaces an earlier analysis of the
    address, extends the log and increments the counter. *)
Theorem analyze_empty env a name avg :
  analysisCount (store env) < Uint256.MAX →
  analyzeContract a name [] [] avg env =
    (inr (mkContractAnalysis name 0 0 []),
     mkEnv (recorded a (mkContractAnalysis name 0 0 []) (store env))
           (logs env ++ [ContractAnalyzed a 0])).
Proof.
  intros Hcount.
  by rewrite (analyze_recorded a name [] [] avg env startLocals eq_refl eq_refl
                Hcount).
Qed.

Lemma analyze_empty_witness :
  analyzeContract 7 "nothing" [] [] 32 deployed =
    (inr (mkContractAnalysis "nothing" 0 0 []),
     mkEnv (recorded 7 (mkContractAnalysis "nothing" 0 0 []) (store deployed))
           (logs deployed ++ [ContractAnalyzed 7 0])).
Proof. apply (analyze_empty deployed 7 "nothing" 32). reflexivity. Defined.

Lemma gasSum_app s avg ops1 : ∀ cs1 ops2 cs2,
  length ops1 = length cs1 →
  gasSum s avg (ops1 ++ ops2) (cs1 ++ cs2) =
  gasSum s avg ops1 cs1 + gasSum s avg ops2 cs2.
Proof.
  induction ops1 as [|op ops1 IH]; intros [|c cs1] ops2 cs2 Hlen;
    simplify_eq/=; [done|].
  rewrite IH by done. lia.
Qed.

Lemma countSum_app cs1 cs2 : countSum (cs1 ++ cs2) = countSum cs1 + countSum cs2.
Proof.
  unfold countSum. induction cs1 as [|c cs1 IH]; simpl; [done|].
  rewrite IH. lia.
Qed.

Lemma suggestionsFor_app s ops1 cs1 ops2 cs2 :
  length ops1 = length cs1 →
  suggestionsFor s (ops1 ++ ops2) (cs1 ++ cs2) =
  suggestionsFor s ops1 cs1 ++ suggestionsFor s ops2 cs2.
Proof.
  intros Hlen. unfold suggestionsFor.
  by rewrite zip_with_app, filter_app, fmap_app.
Qed.

(** X12 ([analyzeContract], splitting a batch): when the analysis of a
    batch returns, so does the analysis of each of the two parts the batch
    is cut into, in the same state; the gas estimate and the operation total
    of the whole are the sums of those of the parts and its suggestions are
    those of the first part followed by those of the second. *)
Theorem analyze_app env a name ops1 cs1 ops2 cs2 avg r env' :
  length ops1 = length cs1 →
  analyzeContract a name (ops1 ++ ops2) (cs1 ++ cs2) avg env = (inr r, env') →
  ∃ r1 env1 r2 env2,
    analyzeContract a name ops1 cs1 avg env = (inr r1, env1) ∧
    analyzeContract a name ops2 cs2 avg env = (inr r2, env2) ∧
    estimatedGas r = estimatedGas r1 + estimatedGas r2 ∧
    totalFheOps r = totalFheOps r1 + totalFheOps r2 ∧
    optimizationSuggestions r =
      optimizationSuggestions r1 ++ optimizationSuggestions r2.
Proof.
  intros Hlen1 Hrun.
  pose proof (analyze_inv a name _ _ avg env r env' Hrun) as (Hlen & Hcount & _).
  apply analyze_result in Hrun as (_ & Hreg & [Hfit Hsum] & -> & _).
  assert (length ops2 = length cs2) as Hlen2
    by (rewrite !length_app in Hlen; lia).
  apply Forall_app in Hreg as [Hreg1 Hreg2].
  apply Forall_app in Hfit as [Hfit1 Hfit2].
  rewrite gasSum_app in Hsum by done.
  assert (outcome (store env) avg ops1 cs1 startLocals =
            inr (finalLocals (store env) avg ops1 cs1 startLocals)) as Hout1
    by (apply outcome_ok; [done..|simpl; lia]).
  assert (outcome (store env) avg ops2 cs2 startLocals =
            inr (finalLocals (store env) avg ops2 cs2 startLocals)) as Hout2
    by (apply outcome_ok; [done..|simpl; lia]).
  eexists _, _, _, _.
  split; [exact (analyze_recorded a name ops1 cs1 avg env _ Hlen1 Hout1 Hcount)|].
  split; [exact (analyze_recorded a name ops2 cs2 avg env _ Hlen2 Hout2 Hcount)|].
  unfold analysisFrom, finalLocals. simpl.
  rewrite gasSum_app, countSum_app, suggestionsFor_app by done.
  repeat split; lia.
Qed.

Lemma analyze_app_witness :
  ∃ r1 env1 r2 env2,
    analyzeContract 7 "subject" ["FHE.mul"]%string [6] 32 deployed = (inr r1, env1) ∧
    analyzeContract 7 "subject" ["FHE.add"]%string [2] 32 deployed = (inr r2, env2) ∧
    104480 = estimatedGas r1 + estimatedGas r2 ∧
    8 = totalFheOps r1 + totalFheOps r2 ∧
    ["Consider reducing calls to FHE.mul (6 calls)"%string] =
      optimizationSuggestions r1 ++ optimizationSuggestions r2.
Proof.
  apply (analyze_app deployed 7 "subject" ["FHE.mul"]%string [6]
           ["FHE.add"]%string [2] 32
           (mkContractAnalysis "subject" 8 104480
              ["Consider reducing calls to FHE.mul (6 calls)"%string])
           (analyzeContract 7 "subject" ["FHE.mul"; "FHE.add"]%string [6; 2] 32
              deployed).2).
  - reflexivity.
  - by vm_compute.
Defined.

Lemma estimated_opGas env avg op :
  registered (store env) op →
  opGas (store env) avg op <= Uint256.MAX →
  estimateSingleOperation op avg env = (inr (opGas (store env) avg op), env) ∧
  estimated env avg op = opGas (store env) avg op.
Proof.
  intros Hreg Hfit. unfold estimated. rewrite estimate_run. simpl.
  rewrite decide_True by done. by rewrite decide_True by done.
Qed.

(** X13 ([analyzeContract] against [estimateSingleOperation]): when the
    analysis of a batch returns, the single estimate of every listed
    operation at the batch's data size returns too, and the gas of the
    analysis is the sum over the positions of that estimate times the
    count. *)
Theorem analyze_sums_estimates env a name ops cs avg r env' :
  analyzeContract a name ops cs avg env = (inr r, env') →
  Forall (λ op, ∃ g, estimateSingleOperation op avg env = (inr g, env)) ops ∧
  estimatedGas r = estimateSum env avg (zip ops cs).
Proof.
  intros Hrun.
  apply analyze_result in Hrun as (Hlen & Hreg & [Hfit _] & -> & _).
  split.
  - apply Forall_forall. intros op Hin.
    rewrite Forall_forall in Hreg, Hfit.
    destruct (estimated_opGas env avg op (Hreg op Hin) (Hfit op Hin)) as [Hest _].
    eauto.
  - unfold analysisFrom, estimatedGas. rewrite gasSum_start.
    clear Hlen. revert cs.
    induction ops as [|op ops IH]; intros [|c cs]; simpl; try done.
    inversion_clear Hreg. inversion_clear Hfit.
    destruct (estimated_opGas env avg op) as [_ ->]; [done..|].
    by rewrite IH.
Qed.

Lemma analyze_sums_estimates_witness :
  Forall (λ op, ∃ g, estimateSingleOperation op 32 deployed = (inr g, deployed))
    ["FHE.mul"; "FHE.add"]%string ∧
  104480 = estimateSum deployed 32 (zip ["FHE.mul"; "FHE.add"]%string [6; 2]).
Proof.
  apply (analyze_sums_estimates deployed 7 "subject"
           ["FHE.mul"; "FHE.add"]%string [6; 2] 32
           (mkContractAnalysis "subject" 8 104480
              ["Consider reducing calls to FHE.mul (6 calls)"%string])
           (analyzeContract 7 "subject" ["FHE.mul"; "FHE.add"]%string [6; 2] 32
              deployed).2).
  by vm_compute.
Defined.

Lemma zip_fst_snd_id {A B} (l : list (A * B)) : zip (l.*1) (l.*2) = l.
Proof. induction l as [|[x y] l IH]; csimpl; [done | by f_equal]. Qed.

Lemma gasSum_permutation s avg (l l' : list (string * N)) :
  l ≡ₚ l' → gasSum s avg (l.*1) (l.*2) = gasSum s avg (l'.*1) (l'.*2).
Proof.
  induction 1 as [|[op c] l l' _ IH|[op1 c1] [op2 c2] l|l1 l2 l3 _ IH1 _ IH2];
    csimpl; [done | by rewrite IH | lia | congruence].
Qed.

Lemma countSum_permutation (cs cs' : list N) :
  cs ≡ₚ cs' → countSum cs = countSum cs'.
Proof.
  unfold countSum.
  induction 1 as [|c cs cs' _ IH|c1 c2 cs|cs1 cs2 cs3 _ IH1 _ IH2];
    simpl; [done | by rewrite IH | lia | congruence].
Qed.

(** X14 ([analyzeContract], order of the batch): the order in which the
    (operation, count) pairs are listed matters for the order of the
    suggestions only. A rearranged batch returns whenever the original one
    does, with the same gas estimate and operation total and with the same
    suggestions, rearranged. *)
Theorem analyze_permutation env a name avg (l l' : list (string * N)) r env' :
  l ≡ₚ l' →
  analyzeContract a name (l.*1) (l.*2) avg env = (inr r, env') →
  ∃ r' env'',
    analyzeContract a name (l'.*1) (l'.*2) avg env = (inr r', env'') ∧
    estimatedGas r' = estimatedGas r ∧
    totalFheOps r' = totalFheOps r ∧
    optimizationSuggestions r' ≡ₚ optimizationSuggestions r.
Proof.
  intros Hperm Hrun.
  pose proof (analyze_inv a name _ _ avg env r env' Hrun) as (_ & Hcount & _).
  apply analyze_result in Hrun as (_ & Hreg & [Hfit Hsum] & -> & _).
  assert (length (l'.*1) = length (l'.*2)) as Hlen' by (by rewrite !length_fmap).
  assert (outcome (store env) avg (l'.*1) (l'.*2) startLocals =
            inr (finalLocals (store env) avg (l'.*1) (l'.*2) startLocals)) as Hout.
  { apply outcome_ok; [done | by rewrite <- Hperm | by rewrite <- Hperm |].
    simpl. rewrite <- (gasSum_permutation _ _ l l' Hperm). lia. }
  eexists _, _.
  split; [exact (analyze_recorded a name _ _ avg env _ Hlen' Hout Hcount)|].
  unfold analysisFrom, finalLocals, suggestionsFor.
  rewrite !zip_fst_snd_id. simpl.
  rewrite (gasSum_permutation _ _ l l' Hperm).
  rewrite (countSum_permutation (l.*2) (l'.*2)) by (by rewrite Hperm).
  repeat split. by rewrite Hperm.
Qed.

Lemma analyze_permutation_witness :
  ∃ r' env'',
    analyzeContract 7 "subject" ["FHE.add"; "FHE.mul"]%string [2; 6] 32 deployed
      = (inr r', env'') ∧
    estimatedGas r' = 104480 ∧
    totalFheOps r' = 8 ∧
    optimizationSuggestions r' ≡ₚ
      ["Consider reducing calls to FHE.mul (6 calls)"%string].
Proof.
  apply (analyze_permutation deployed 7 "subject" 32
           [("FHE.mul"%string, 6); ("FHE.add"%string, 2)]
           [("FHE.add"%string, 2); ("FHE.mul"%string, 6)]
           (mkContractAnalysis "subject" 8 104480
              ["Consider reducing calls to FHE.mul (6 calls)"%string])
           (analyzeContract 7 "subject" ["FHE.mul"; "FHE.add"]%string [6; 2] 32
              deployed).2).
  - apply perm_swap.
  - by vm_compute.
Defined.

Lemma suggestions_cost s avg ops : ∀ cs,
  60006 * N.of_nat (length (suggestionsFor s ops cs)) <= gasSum s avg ops cs.
Proof.
  induction ops as [|op ops IH]; intros [|c cs]; simpl; try done.
  rewrite suggestionsFor_cons, length_app, suggestionsFor_one.
  specialize (IH cs).
  destruct (decide (flagged s (op, c))) as [[Hbase Hc]|_]; simpl in *.
  - assert (60006 <= opGas s avg op * c) by (unfold opGas; nia). lia.
  - lia.
Qed.

(** X15 ([analyzeContract], what a result satisfies): in a returned
    analysis the operation total is at most the gas estimate, there are at
    most as many suggestions as operations, and every suggestion stands for
    at least 60006 gas (more than 10000 per call, more than 5 calls) of the
    estimate. *)
Theorem analyze_result_bounds env a name ops cs avg r env' :
  analyzeContract a name ops cs avg env = (inr r, env') →
  totalFheOps r <= estimatedGas r ∧
  (length (optimizationSuggestions r) ≤ length ops)%nat ∧
  60006 * N.of_nat (length (optimizationSuggestions r)) <= estimatedGas r.
Proof.
  intros Hrun. apply analyze_result in Hrun as (Hlen & Hreg & _ & -> & _).
  unfold analysisFrom, finalLocals. simpl. rewrite !N.add_0_l.
  split; [by apply countSum_le_gasSum|]. split; [|apply suggestions_cost].
  unfold suggestionsFor. rewrite length_fmap.
  etrans; [apply length_filter|]. rewrite length_zip_with. lia.
Qed.

Lemma analyze_result_bounds_witness :
  8 <= 104480 ∧ (1 ≤ 2)%nat ∧ 60006 * N.of_nat 1 <= 104480.
Proof.
  apply (analyze_result_bounds deployed 7 "subject"
           ["FHE.mul"; "FHE.add"]%string [6; 2] 32
           (mkContractAnalysis "subject" 8 104480
              ["Consider reducing calls to FHE.mul (6 calls)"%string])
           (analyzeContract 7 "subject" ["FHE.mul"; "FHE.add"]%string [6; 2] 32
              deployed).2).
  by vm_compute.
Defined.

(** ** Further properties of the reachable states *)

(** Storage after one call. *)
Lemma step_store env c :
  store (step env c) =
  match c with
  | CallUpdateOperationCost op base perByte =>
      setCost op (mkOperationCost op base perByte) (store env)
  | CallAnalyzeContract a name ops cs avg =>
      match (analyzeContract a name ops cs avg env).1 with
      | inr r => recorded a r (store env)
      | inl _ => store env
      end
  | _ => store env
  end.
Proof.
  pose proof (step_effect env c) as Heff.
  destruct c as [op b p|a name ops cs avg|a|op d| |op|a|i|];
    try (by rewrite Heff).
  - reflexivity.
  - unfold step, dispatch, transact, void, bind.
    destruct (analyzeContract a name ops cs avg env) as [[e|r] env'] eqn:Hrun;
      simpl; [done|].
    by apply analyze_result in Hrun as (_ & _ & _ & _ & ->).
Qed.

Lemma run_snoc calls c : run (calls ++ [c]) = step (run calls) c.
Proof. unfold run. by rewrite foldl_app. Qed.

Lemma deployed_registry :
  operationCosts (store deployed) =
  <["FHE.cast"%string := mkOperationCost "FHE.cast" 3000 5]>
  (<["FHE.not"%string := mkOperationCost "FHE.not" 4000 8]>
  (<["FHE.or"%string := mkOperationCost "FHE.or" 6000 10]>
  (<["FHE.and"%string := mkOperationCost "FHE.and" 6000 10]>
  (<["FHE.ne"%string := mkOperationCost "FHE.ne" 7000 12]>
  (<["FHE.eq"%string := mkOperationCost "FHE.eq" 7000 12]>
  (<["FHE.lt"%string := mkOperationCost "FHE.lt" 8000 15]>
  (<["FHE.gt"%string := mkOperationCost "FHE.gt" 8000 15]>
  (<["FHE.div"%string := mkOperationCost "FHE.div" 20000 25]>
  (<["FHE.mul"%string := mkOperationCost "FHE.mul" 15000 20]>
  (<["FHE.sub"%string := mkOperationCost "FHE.sub" 5000 10]>
  (<["FHE.add"%string := mkOperationCost "FHE.add" 5000 10]> ∅))))))))))).
Proof. reflexivity. Qed.

(** X16 ([constructor]): right after construction the registered names
    are exactly the twelve the constructor writes, each with a nonzero base
    cost; every other name reads as the zero entry. Nothing is analysed and
    nothing is logged yet. *)
Theorem constructor_registers_defaults (name : string) :
  (registered (store deployed) name ↔ name ∈ defaultOperations) ∧
  (name ∉ defaultOperations → costOf (store deployed) name = zeroOperationCost) ∧
  contractAnalyses (store deployed) = ∅ ∧
  analyzedContracts (store deployed) = [] ∧
  analysisCount (store deployed) = 0 ∧
  logs deployed = [].
Proof.
  assert (name ∉ defaultOperations →
          costOf (store deployed) name = zeroOperationCost) as Hzero.
  { intros Hnot. unfold costOf. rewrite deployed_registry.
    unfold defaultOperations in Hnot. rewrite !not_elem_of_cons in Hnot.
    destruct Hnot as (? & ? & ? & ? & ? & ? & ? & ? & ? & ? & ? & ? & _).
    rewrite !lookup_insert_ne by congruence. by rewrite lookup_empty. }
  split; [|by repeat split].
  split.
  - intros Hreg. destruct (decide (name ∈ defaultOperations)) as [|Hnot]; [done|].
    unfold registered in Hreg. rewrite (Hzero Hnot) in Hreg. simpl in Hreg. lia.
  - unfold defaultOperations. rewrite !elem_of_cons, elem_of_nil.
    intros H. repeat (destruct H as [->|H]; [by vm_compute|]). done.
Qed.

Lemma constructor_registers_defaults_witness :
  registered (store deployed) "FHE.div" ∧
  costOf (store deployed) "FHE.bootstrap" = zeroOperationCost.
Proof.
  split.
  - apply (constructor_registers_defaults "FHE.div").
    apply (bool_decide_unpack _). by vm_compute.
  - apply (constructor_registers_defaults "FHE.bootstrap").
    apply (bool_decide_unpack _). by vm_compute.
Defined.

(** X17 (registry invariant): in every state the contract can be in,
    an entry of the registry carries the name it is stored under, because
    the constructor and [updateOperationCost] write the key into the record
    and nothing else writes the registry. *)
Theorem registry_names_match_keys (calls : list Call) (name : string)
    (cost : OperationCost) :
  operationCosts (store (run calls)) !! name = Some cost →
  operationName cost = name.
Proof.
  revert name cost. induction calls as [|c calls IH] using rev_ind;
    intros name cost Hlook.
  - change (run []) with deployed in Hlook. rewrite deployed_registry in Hlook.
    repeat (apply lookup_insert_Some in Hlook as [[? ?]|[_ Hlook]];
            [by simplify_eq|]).
    by rewrite lookup_empty in Hlook.
  - rewrite run_snoc, step_store in Hlook.
    destruct c as [op b p|a nm ops cs avg|a|op d| |op|a|i|]; try by apply IH.
    + unfold setCost in Hlook. simpl in Hlook.
      apply lookup_insert_Some in Hlook as [[? ?]|[_ Hlook]];
        [by simplify_eq | by apply IH].
    + destruct ((analyzeContract a nm ops cs avg (run calls)).1); by apply IH.
Qed.

Lemma registry_names_match_keys_witness :
  operationName (mkOperationCost "FHE.bootstrap" 90000 40) = "FHE.bootstrap"%string.
Proof.
  apply (registry_names_match_keys
           [CallUpdateOperationCost "FHE.bootstrap" 1 1;
            CallAnalyzeContract 7 "subject" ["FHE.bootstrap"]%string [3] 8;
            CallUpdateOperationCost "FHE.bootstrap" 90000 40]
           "FHE.bootstrap").
  by vm_compute.
Defined.

(** X18 (analysis store invariant): in every state the contract can be
    in, an address has a stored analysis exactly when it occurs in the log
    of analysed addresses; for an address that is not in the log
    [getAnalysis] returns the zero analysis (empty name, zero totals, no
    suggestions) and does not fail. *)
Theorem analysed_iff_logged (calls : list Call) (a : address) :
  (a ∈ analyzedContracts (store (run calls)) ↔
   is_Some (contractAnalyses (store (run calls)) !! a)) ∧
  (a ∉ analyzedContracts (store (run calls)) →
   getAnalysis a (run calls) = (inr zeroContractAnalysis, run calls)).
Proof.
  assert (a ∈ analyzedContracts (store (run calls)) ↔
          is_Some (contractAnalyses (store (run calls)) !! a)) as Hiff.
  { induction calls as [|c calls IH] using rev_ind.
    - change (run []) with deployed. simpl.
      rewrite elem_of_nil, lookup_empty. split; [done | by intros [? ?]].
    - rewrite run_snoc, step_store.
      destruct c as [op b p|b nm ops cs avg|b|op d| |op|b|i|]; try done.
      destruct ((analyzeContract b nm ops cs avg (run calls)).1) as [e|r];
        [done|].
      unfold recorded. simpl. rewrite elem_of_app, list_elem_of_singleton.
      rewrite lookup_insert_is_Some. rewrite IH.
      destruct (decide (b = a)); intuition congruence. }
  split; [done|].
  intros Hnot. unfold getAnalysis, analysisOf. exec_unfold.
  destruct (contractAnalyses (store (run calls)) !! a) as [r|] eqn:Hlook; [|done].
  exfalso. apply Hnot, Hiff. by exists r.
Qed.

Lemma analysed_iff_logged_witness :
  getAnalysis 8 (run [CallAnalyzeContract 7 "subject" ["FHE.mul"]%string [6] 32]) =
    (inr zeroContractAnalysis,
     run [CallAnalyzeContract 7 "subject" ["FHE.mul"]%string [6] 32]).
Proof.
  apply (analysed_iff_logged
           [CallAnalyzeContract 7 "subject" ["FHE.mul"]%string [6] 32] 8).
  apply (bool_decide_unpack _). by vm_compute.
Defined.

(** X19 (append-only log): whatever calls follow, the log of analysed
    addresses only grows at its end and the counter never decreases: the
    log of an earlier state is a prefix of the log of every later state. *)
Theorem log_append_only (calls more : list Call) :
  analyzedContracts (store (run calls)) `prefix_of`
    analyzedContracts (store (run (calls ++ more))) ∧
  analysisCount (store (run calls)) <= analysisCount (store (run (calls ++ more))).
Proof.
  induction more as [|c more [IHlog IHcount]] using rev_ind.
  - by rewrite app_nil_r.
  - rewrite app_assoc, run_snoc, step_store.
    destruct c as [op b p|a nm ops cs avg|a|op d| |op|a|i|]; try done.
    destruct ((analyzeContract a nm ops cs avg (run (calls ++ more))).1);
      [done|].
    unfold recorded. simpl. split; [by apply prefix_app_r | lia].
Qed.

(** X20 (stored analyses): in every state the contract can be in, every
    stored analysis has an operation total that does not exceed its gas
    estimate, and a gas estimate that fits in 256 bits. *)
Theorem stored_analyses_bounded (calls : list Call) (a : address)
    (r : ContractAnalysis) :
  contractAnalyses (store (run calls)) !! a = Some r →
  totalFheOps r <= estimatedGas r ∧ estimatedGas r <= Uint256.MAX.
Proof.
  revert a r. induction calls as [|c calls IH] using rev_ind; intros a r Hlook.
  - change (run []) with deployed in Hlook. simpl in Hlook.
    by rewrite lookup_empty in Hlook.
  - rewrite run_snoc, step_store in Hlook.
    destruct c as [op b p|b nm ops cs avg|b|op d| |op|b|i|]; try by eapply IH.
    destruct (analyzeContract b nm ops cs avg (run calls)) as [[e|r'] env']
      eqn:Hrun; simpl in Hlook; [by eapply IH|].
    apply lookup_insert_Some in Hlook as [[_ <-]|[_ Hlook]]; [|by eapply IH].
    apply analyze_result in Hrun as (Hlen & Hreg & [_ Hsum] & -> & _).
    unfold analysisFrom, estimatedGas, totalFheOps.
    rewrite gasSum_start, countSum_start.
    split; [by apply countSum_le_gasSum | done].
Qed.

Lemma stored_analyses_bounded_witness : 6 <= 93840 ∧ 93840 <= Uint256.MAX.
Proof.
  apply (stored_analyses_bounded
           [CallAnalyzeContract 7 "subject" ["FHE.mul"]%string [6] 32] 7
           (mkContractAnalysis "subject" 6 93840
              ["Consider reducing calls to FHE.mul (6 calls)"%string])).
  by vm_compute.
Defined.

(** X21 (an analysis stays until the address is analysed again): after
    [analyzeContract] has returned an analysis for an address, [getAnalysis]
    keeps returning it through any later calls that do not analyse that
    address; in particular later changes of the cost registry do not alter
    a stored estimate. *)
Theorem analysis_persists env a name ops cs avg r (more : list Call) :
  (analyzeContract a name ops cs avg env).1 = inr r →
  Forall (λ c, analysisTarget c ≠ Some a) more →
  let env' := foldl step (step env (CallAnalyzeContract a name ops cs avg)) more in
  getAnalysis a env' = (inr r, env').
Proof.
  intros Hrun Hmore env'.
  assert (contractAnalyses (store env') !! a = Some r) as Hlook.
  { unfold env'. clear env'.
    induction more as [|c more IH] using rev_ind.
    - simpl. rewrite step_store, Hrun. unfold recorded. simpl.
      apply lookup_insert_eq.
    - apply Forall_app in Hmore as [Hmore Hc]. rewrite Forall_singleton in Hc.
      rewrite foldl_app. simpl. rewrite step_store.
      destruct c as [op b p|b nm ops' cs' avg'|b|op d| |op|b|i|];
        try by apply IH.
      destruct ((analyzeContract b nm ops' cs' avg' _).1); [by apply IH|].
      unfold recorded. simpl. rewrite lookup_insert_ne; [by apply IH|].
      simpl in Hc. congruence. }
  unfold getAnalysis, analysisOf. exec_unfold. by rewrite Hlook.
Qed.

Lemma analysis_persists_witness :
  let env' :=
    foldl step
      (step deployed (CallAnalyzeContract 7 "subject" ["FHE.mul"]%string [6] 32))
      [CallUpdateOperationCost "FHE.mul" 1 1;
       CallAnalyzeContract 8 "other" ["FHE.mul"]%string [6] 32] in
  getAnalysis 7 env' =
    (inr (mkContractAnalysis "subject" 6 93840
            ["Consider reducing calls to FHE.mul (6 calls)"%string]), env').
Proof.
  apply (analysis_persists deployed 7 "subject" ["FHE.mul"]%string [6] 32
           (mkContractAnalysis "subject" 6 93840
              ["Consider reducing calls to FHE.mul (6 calls)"%string])
           [CallUpdateOperationCost "FHE.mul" 1 1;
            CallAnalyzeContract 8 "other" ["FHE.mul"]%string [6] 32]).
  - by vm_compute.
  - repeat constructor; simpl; discriminate.
Defined.

(** ** How registry writes and analyses compose *)

(** The loop reads storage through the cost registry only. *)
Lemma outcome_same_registry s s' avg ops :
  operationCosts s = operationCosts s' →
  ∀ cs v, outcome s avg ops cs v = outcome s' avg ops cs v.
Proof.
  intros Hreg.
  assert (∀ name, costOf s name = costOf s' name) as Hcost
    by (intros name; unfold costOf; by rewrite Hreg).
  induction ops as [|op ops IH]; intros [|c cs] v; simpl; try done.
  assert (registered s op ↔ registered s' op)
    by (unfold registered; by rewrite Hcost).
  assert (opGas s avg op = opGas s' avg op) as Hgas
    by (unfold opGas; by rewrite Hcost).
  assert (advance avg s op c v = advance avg s' op c v) as Hadv.
  { unfold advance. rewrite Hgas. do 2 f_equal.
    unfold suggestionsFor. f_equal. apply list_filter_iff.
    intros [o n]. unfold flagged. simpl. by rewrite Hcost. }
  rewrite <- IH, <- Hadv.
  repeat case_decide; try done; try tauto; exfalso; intuition lia.
Qed.

(** X22 (a zero base cost blocks analyses): once the base cost of a name
    has been set to zero, every batch that lists the name is rejected by
    [analyzeContract], whatever its counts, and leaves no trace. *)
Theorem zero_cost_blocks_analysis env name perByte a subject ops cs avg :
  name ∈ ops →
  length ops = length cs →
  let env1 := (transact (updateOperationCost name 0 perByte) env).2 in
  ∃ e,
    transact (analyzeContract a subject ops cs avg) env1 = (inl e, env1) ∧
    (e = UnknownOperation ∨ e = ArithmeticOverflow).
Proof.
  intros Hin Hlen env1.
  assert (store env1 = setCost name (mkOperationCost name 0 perByte) (store env))
    as Hs by reflexivity.
  assert (Exists (λ op, ¬ registered (store env1) op) ops) as Hex.
  { apply Exists_exists. exists name. split; [done|].
    unfold registered. rewrite Hs, costOf_setCost. simpl. lia. }
  clearbody env1.
  destruct (outcome (store env1) avg ops cs startLocals) as [e|v] eqn:Hout.
  2: { destruct (outcome_unregistered (store env1) avg ops cs startLocals Hlen Hex);
         congruence. }
  destruct (analyze_stopped a subject ops cs avg env1 e Hlen Hout) as (evs & Hrun).
  exists e. split; [by apply transact_inl in Hrun|].
  apply outcome_failure in Hout as [[-> _]| ->]; [by left | by right].
Qed.

Lemma zero_cost_blocks_analysis_witness :
  let env1 := (transact (updateOperationCost "FHE.mul" 0 20) deployed).2 in
  ∃ e,
    transact (analyzeContract 7 "subject" ["FHE.add"; "FHE.mul"]%string [1; 1] 32)
      env1 = (inl e, env1) ∧
    (e = UnknownOperation ∨ e = ArithmeticOverflow).
Proof.
  apply (zero_cost_blocks_analysis deployed "FHE.mul" 20 7 "subject"
           ["FHE.add"; "FHE.mul"]%string [1; 1] 32).
  - apply (bool_decide_unpack _). by vm_compute.
  - reflexivity.
Defined.

(** X23 ([estimateSingleOperation], data size): when the estimate for a
    data size returns, the estimate for every smaller data size returns as
    well, with a value that is no larger. *)
Theorem estimate_monotone env name small large g :
  small <= large →
  estimateSingleOperation name large env = (inr g, env) →
  ∃ g', estimateSingleOperation name small env = (inr g', env) ∧ g' <= g.
Proof.
  intros Hle Hrun. rewrite estimate_run in Hrun. rewrite estimate_run.
  destruct (decide (registered (store env) name)) as [Hreg|]; [|by simplify_eq].
  destruct (decide (opGas (store env) large name <= Uint256.MAX)) as [Hfit|];
    [|by simplify_eq].
  assert (opGas (store env) small name <= opGas (store env) large name) as Hmono
    by (unfold opGas; nia).
  rewrite decide_True by lia. simplify_eq. eauto.
Qed.

Lemma estimate_monotone_witness :
  ∃ g', estimateSingleOperation "FHE.mul" 8 deployed = (inr g', deployed) ∧
        g' <= 15640.
Proof.
  apply (estimate_monotone deployed "FHE.mul" 8 32 15640); by vm_compute.
Defined.

(** X24 ([analyzeContract], repeated): analysing the same report again
    right away returns the same analysis (as long as the counter can be
    incremented once more); the second call changes the log and the counter
    only. *)
Theorem analyze_again env a name ops cs avg r env1 :
  analyzeContract a name ops cs avg env = (inr r, env1) →
  analysisCount (store env1) < Uint256.MAX →
  ∃ env2,
    analyzeContract a name ops cs avg env1 = (inr r, env2) ∧
    contractAnalyses (store env2) = contractAnalyses (store env1) ∧
    operationCosts (store env2) = operationCosts (store env1) ∧
    analyzedContracts (store env2) = analyzedContracts (store env1) ++ [a] ∧
    analysisCount (store env2) = analysisCount (store env1) + 1.
Proof.
  intros Hrun Hcount.
  apply analyze_inv in Hrun as (Hlen & _ & v & Hout & -> & ->).
  simpl in *.
  assert (outcome (recorded a (analysisFrom name v) (store env)) avg ops cs
            startLocals = inr v) as Hout'.
  { by rewrite (outcome_same_registry _ (store env)). }
  eexists. split.
  { apply (analyze_recorded a name ops cs avg); [done | exact Hout' | done]. }
  simpl. repeat split. by rewrite insert_insert_eq.
Qed.

Lemma analyze_again_witness :
  let first := analyzeContract 7 "subject" ["FHE.mul"]%string [6] 32 deployed in
  ∃ env2,
    analyzeContract 7 "subject" ["FHE.mul"]%string [6] 32 first.2 =
      (inr (mkContractAnalysis "subject" 6 93840
              ["Consider reducing calls to FHE.mul (6 calls)"%string]), env2) ∧
    contractAnalyses (store env2) = contractAnalyses (store first.2) ∧
    operationCosts (store env2) = operationCosts (store first.2) ∧
    analyzedContracts (store env2) = analyzedContracts (store first.2) ++ [7] ∧
    analysisCount (store env2) = analysisCount (store first.2) + 1.
Proof.
  intros first.
  apply (analyze_again deployed 7 "subject" ["FHE.mul"]%string [6] 32
           (mkContractAnalysis "subject" 6 93840
              ["Consider reducing calls to FHE.mul (6 calls)"%string])
           first.2); by vm_compute.
Defined.

(** X25 ([updateOperationCost] then [analyzeContract]): an analysis uses
    the registry as it is when the call is made. After a cost with a nonzero
    base has been written for a name, a batch of that one name with count
    [c] is estimated at [(base + perByte * avgDataSize) * c], provided that
    is representable, and is flagged exactly when [base > 10000] and
    [c > 5]. *)
Theorem update_then_analyze env name base perByte a subject c avg :
  0 < base →
  (base + perByte * avg) * c <= Uint256.MAX →
  base + perByte * avg <= Uint256.MAX →
  analysisCount (store env) < Uint256.MAX →
  let env1 := (transact (updateOperationCost name base perByte) env).2 in
  (analyzeContract a subject [name] [c] avg env1).1 =
    inr (mkContractAnalysis subject c ((base + perByte * avg) * c)
           (if decide (10000 < base ∧ 5 < c)
            then [suggestionText name c] else [])).
Proof.
  intros Hbase Hsum Hfit Hcount env1.
  assert (costOf (store env1) name = mkOperationCost name base perByte) as Hcost
    by apply costOf_setCost.
  assert (analysisCount (store env1) < Uint256.MAX) as Hcount1 by exact Hcount.
  clearbody env1.
  assert (registered (store env1) name) as Hreg
    by (unfold registered; by rewrite Hcost).
  assert (opGas (store env1) avg name = base + perByte * avg) as Hgas
    by (unfold opGas; by rewrite Hcost).
  assert (outcome (store env1) avg [name] [c] startLocals =
            inr (finalLocals (store env1) avg [name] [c] startLocals)) as Hout.
  { apply outcome_ok; [done | by constructor | constructor; [lia | done] |].
    simpl. lia. }
  rewrite (analyze_recorded a subject [name] [c] avg env1 _ eq_refl Hout Hcount1).
  simpl. unfold analysisFrom, finalLocals. simpl.
  rewrite suggestionsFor_one, Hgas, !N.add_0_r. do 2 f_equal.
  assert (flagged (store env1) (name, c) ↔ 10000 < base ∧ 5 < c) as Hflag
    by (unfold flagged; simpl; by rewrite Hcost).
  repeat case_decide; try done; tauto.
Qed.

Lemma update_then_analyze_witness :
  let env1 := (transact (updateOperationCost "FHE.bootstrap" 90000 40) deployed).2 in
  (analyzeContract 7 "subject" ["FHE.bootstrap"%string] [6] 64 env1).1 =
    inr (mkContractAnalysis "subject" 6 ((90000 + 40 * 64) * 6)
           (if decide (10000 < 90000 ∧ 5 < 6)
            then [suggestionText "FHE.bootstrap" 6] else [])).
Proof.
  apply (update_then_analyze deployed "FHE.bootstrap" 90000 40 7 "subject" 6 64);
    by vm_compute.
Defined.

(** ** The pagination of the record table *)

Lemma slice_forward {A} (l : list A) (i n : nat) :
  App.slice l (Z.of_nat i) (Z.of_nat (i + n)) = take n (drop i l).
Proof.
  unfold App.slice.
  destruct (Z.ltb_spec (Z.of_nat i) 0) as [|_]; [lia|].
  destruct (Z.ltb_spec (Z.of_nat (i + n)) 0) as [|_]; [lia|].
  destruct (decide (i ≤ length l)%nat) as [Hi|Hi].
  - rewrite (Z.min_l (Z.of_nat i)) by lia. rewrite Nat2Z.id.
    destruct (decide (i + n ≤ length l)%nat).
    + rewrite (Z.min_l (Z.of_nat (i + n))) by lia. f_equal. lia.
    + rewrite (Z.min_r (Z.of_nat (i + n))) by lia. rewrite !take_ge; [done|..];
        rewrite length_drop; lia.
  - rewrite !drop_ge by lia. by rewrite !take_nil.
Qed.

Lemma currentRecords_page {A} (l : list A) (i : nat) :
  App.currentRecords l (Z.of_nat i + 1) = take 5 (drop (5 * i) l).
Proof.
  unfold App.currentRecords, App.itemsPerPage.
  replace ((Z.of_nat i + 1) * 5 - 5)%Z with (Z.of_nat (5 * i)) by lia.
  replace ((Z.of_nat i + 1) * 5)%Z with (Z.of_nat (5 * i + 5)) by lia.
  apply slice_forward.
Qed.

Lemma pages_prefix {A} (l : list A) (k : nat) :
  mjoin (App.currentRecords l <$> seqZ 1 (Z.of_nat k)) = take (5 * k) l.
Proof.
  induction k as [|k IH]; [by rewrite take_0|].
  rewrite seqZ_S, fmap_app, join_app, IH. simpl. rewrite app_nil_r.
  replace (1 + Z.of_nat k)%Z with (Z.of_nat k + 1)%Z by lia.
  rewrite currentRecords_page, take_take_drop. f_equal. lia.
Qed.

Lemma totalPages_bounds {A} (l : list A) :
  (0 <= App.totalPages l)%Z ∧
  (length l ≤ 5 * Z.to_nat (App.totalPages l))%nat ∧
  (5 * Z.to_nat (App.totalPages l) < length l + 5)%nat.
Proof.
  unfold App.totalPages, App.itemsPerPage.
  pose proof (Z.div_mod (Z.of_nat (length l) + 5 - 1) 5 ltac:(lia)).
  pose proof (Z.mod_pos_bound (Z.of_nat (length l) + 5 - 1) 5 ltac:(lia)).
  lia.
Qed.

(** X26 (pagination of the record table, [App.tsx]): the pages 1 to
    [totalPages] show every filtered record exactly once and in order: put
    one after the other they give the filtered list. No page shows more
    than five records, and there are [totalPages = 0] pages exactly when
    the list is empty. *)
Theorem pages_partition {A} (filteredRecords : list A) :
  mjoin (App.currentRecords filteredRecords <$>
           seqZ 1 (App.totalPages filteredRecords)) = filteredRecords ∧
  (∀ page : Z, (length (App.currentRecords filteredRecords page) ≤ 5)%nat) ∧
  (App.totalPages filteredRecords = 0%Z ↔ filteredRecords = []).
Proof.
  pose proof (totalPages_bounds filteredRecords) as (Hpos & Hcover & Hlast).
  split; [|split].
  - rewrite <- (Z2Nat.id (App.totalPages filteredRecords)) by done.
    rewrite pages_prefix. by apply take_ge.
  - intros page. unfold App.currentRecords, App.slice, App.itemsPerPage.
    rewrite length_take.
    repeat match goal with
           | |- context [(?x <? ?y)%Z] => destruct (Z.ltb_spec x y)
           end; lia.
  - split.
    + intros Hzero. rewrite Hzero in Hcover. simpl in Hcover.
      apply length_zero_iff_nil. lia.
    + intros ->. reflexivity.
Qed.

Lemma pages_partition_witness :
  mjoin (App.currentRecords [1; 2; 3; 4; 5; 6; 7]%nat <$>
           seqZ 1 (App.totalPages [1; 2; 3; 4; 5; 6; 7]%nat)) =
    [1; 2; 3; 4; 5; 6; 7]%nat.
Proof. exact (proj1 (pages_partition [1; 2; 3; 4; 5; 6; 7]%nat)). Defined.

(** X27 (pagination, pages in and out of range): a page from 1 to
    [totalPages] shows at least one record, and a page beyond [totalPages]
    shows none; the latter is what the table shows when the filter has
    shortened the list while a later page was selected. *)
Theorem page_in_range {A} (filteredRecords : list A) (page : Z) :
  (1 <= page)%Z →
  (App.currentRecords filteredRecords page ≠ [] ↔
   (page <= App.totalPages filteredRecords)%Z).
Proof.
  intros Hpage.
  pose proof (totalPages_bounds filteredRecords) as (Hpos & Hcover & Hlast).
  replace page with (Z.of_nat (Z.to_nat (page - 1)) + 1)%Z by lia.
  rewrite currentRecords_page.
  set (i := Z.to_nat (page - 1)).
  assert (take 5 (drop (5 * i) filteredRecords) = [] ↔
          (length filteredRecords ≤ 5 * i)%nat) as Hempty.
  { rewrite <- length_zero_iff_nil, length_take, length_drop. lia. }
  rewrite Hempty. lia.
Qed.

Lemma page_in_range_witness :
  App.currentRecords [1; 2; 3; 4; 5; 6; 7]%nat 2 ≠ [] ↔
  (2 <= App.totalPages [1; 2; 3; 4; 5; 6; 7]%nat)%Z.
Proof. apply (page_in_range [1; 2; 3; 4; 5; 6; 7]%nat 2). lia. Defined.
